(** * AC-3 arc-consistency propagation (constraintPropagation.ts)

    A shallow embedding of the TypeScript module and the properties of its
    three steps: symmetrization of the arc list, the revise/prune step and
    the worklist loop.

    Domains are JavaScript arrays, mutated in place and reached through the
    [domains] map of the CSP.  Two variables may be mapped to one array
    object, so the embedding keeps an explicit store of arrays and lets the
    map hold references into it. *)

From stdpp Require Import base option list gmap strings.
From Stdlib Require Import ZArith Lia.


(** ** Values

    The module is generic in the value type [T].  Two things of a JavaScript
    value are observed by the code: its identity as a [Set] member
    ([valuesToRemove.has]) and its truthiness (the result of [Array.find] is
    negated with [!]). *)

Class JsValue (T : Type) := {
  js_eq_dec :: EqDecision T;
  truthy : T → bool
}.

(** Integer-valued JavaScript numbers: [0] is the only falsy one. *)
#[export] Instance number_JsValue : JsValue Z :=
  {| truthy := λ n, negb (n =? 0)%Z |}.

(** JavaScript strings: the empty string is the only falsy one. *)
#[export] Instance string_JsValue : JsValue string :=
  {| truthy := λ s, negb (bool_decide (s = EmptyString)) |}.

(** ** Data model *)

(** [type Variable = string] ([Variable] is reserved in Rocq). *)
Definition Var := string.

(** A reference to an array object. *)
Definition loc := nat.

Record Arc (T : Type) := mkArc {
  relation : Var * Var;
  constraint : T → T → bool
}.
Arguments mkArc {T}.
Arguments relation {T}.
Arguments constraint {T}.

(** [domains] is the [Map<Variable, T[]>]: it holds array references.
    [store] holds the current contents of the array objects. *)
Record CSP (T : Type) := mkCSP {
  variables : list Var;
  domains : gmap Var loc;
  arcs : list (Arc T);
  store : gmap loc (list T)
}.
Arguments mkCSP {T}.
Arguments variables {T}.
Arguments domains {T}.
Arguments arcs {T}.
Arguments store {T}.

(** What a call does: it returns, it throws (a [TypeError] on a property of
    [undefined]), or the loop bound given to the model ran out. *)
Inductive outcome (A : Type) :=
  | Returns (a : A)
  | Throws
  | OutOfFuel.
Arguments Returns {A}.
Arguments Throws {A}.
Arguments OutOfFuel {A}.

(** ** Array primitives *)

(** [Array.prototype.find]: the first element satisfying the callback, or
    [undefined] ([None]). *)
Fixpoint array_find {A} (f : A → bool) (l : list A) : option A :=
  match l with
  | [] => None
  | x :: l' => if f x then Some x else array_find f l'
  end.

(** [!v] for [v] the result of [find]: [undefined] is falsy. *)
Definition js_not {T} `{JsValue T} (found : option T) : bool :=
  match found with
  | None => true
  | Some v => negb (truthy v)
  end.

(** [Set.prototype.has] and [Set.prototype.add], the set kept in insertion
    order. *)
Definition set_has {T} `{JsValue T} (s : list T) (v : T) : bool :=
  bool_decide (v ∈ s).

Definition set_add {T} `{JsValue T} (v : T) (s : list T) : list T :=
  if set_has s v then s else s ++ [v].

Section ac3.
Context {T : Type} `{JsValue T}.

(** [csp.domains.get(v)], dereferenced: the array's current contents. *)
Definition domain_of (csp : CSP T) (v : Var) : option (list T) :=
  l ← domains csp !! v; store csp !! l.

(** The reverse arc pushed by [makeArcsSymmetric]. *)
Definition reverse_arc (arc : Arc T) : Arc T :=
  let '(prunedVariable, respectVariable) := relation arc in
  {| relation := (respectVariable, prunedVariable);
     constraint := λ x y, constraint arc y x |}.

(** [arcs.forEach(arc => arcs.push(..))] over the copy [arcs] of the
    argument: [forEach] fixes the range of indices before the first call,
    and the elements in that range are those of the argument, which the
    pushes leave in place. *)
Definition makeArcsSymmetric (arcsArg : list (Arc T)) : list (Arc T) :=
  let arcs := arcsArg in
  foldl (λ arcs arc, arcs ++ [reverse_arc arc]) arcs arcsArg.

Definition arcsWithRespectTo (variable : Var) (csp : CSP T) : list (Arc T) :=
  filter (λ arc, variable = (relation arc).2) (arcs csp).

(** [pruneDomain]: the array is emptied and refilled from its copy. *)
Definition pruneDomain (domain : list T) (valuesToRemove : list T) : list T :=
  let domainCopy := domain in
  foldl (λ domain val, if negb (set_has valuesToRemove val)
                       then domain ++ [val] else domain)
        [] domainCopy.

(** The [forEach] of [revise]: the state is [valuesToRemove] and
    [revised]; [respectDomain] is [None] when the lookup gave [undefined],
    and then the first callback throws (the result [None]). *)
Fixpoint revise_scan (c : T → T → bool) (respectDomain : option (list T))
    (prunedDomain : list T) (valuesToRemove : list T) (revised : bool)
    : option (list T * bool) :=
  match prunedDomain with
  | [] => Some (valuesToRemove, revised)
  | pruneVal :: rest =>
      match respectDomain with
      | None => None
      | Some rd =>
          if js_not (array_find (λ respectVal, c pruneVal respectVal) rd)
          then revise_scan c respectDomain rest (set_add pruneVal valuesToRemove) true
          else revise_scan c respectDomain rest valuesToRemove revised
      end
  end.

(** [revise]: a variable without an entry in [domains] is [undefined], and
    [forEach] or [find] on it throws.  The arrays are scanned first and
    written once, by [pruneDomain], after the scan.  (A reference the store
    does not hold cannot arise in JavaScript; it is read as [undefined].) *)
Definition revise (arc : Arc T) (csp : CSP T) : outcome (bool * CSP T) :=
  let '(prunedVariable, respectVariable) := relation arc in
  match domains csp !! prunedVariable with
  | None => Throws
  | Some lp =>
      match store csp !! lp with
      | None => Throws
      | Some prunedDomain =>
          let respectDomain := domain_of csp respectVariable in
          match revise_scan (constraint arc) respectDomain prunedDomain [] false with
          | Some (valuesToRemove, revised) =>
              Returns (revised,
                       {| variables := variables csp;
                          domains := domains csp;
                          arcs := arcs csp;
                          store := <[lp := pruneDomain prunedDomain valuesToRemove]> (store csp) |})
          | None => Throws
          end
      end
  end.

(** One turn of the [while] loop of [ac3]: the test of the queue, [shift],
    [revise], the wipeout test on the array of the pruned variable and the
    pushes of [arcsWithRespectTo]. *)
Inductive step_result :=
  | Continue (arcQueue : list (Arc T)) (csp : CSP T)
  | Done (result : bool) (csp : CSP T)
  | Raise.

Definition ac3_step (arcQueue : list (Arc T)) (csp : CSP T) : step_result :=
  match arcQueue with
  | [] => Done true csp
  | arc :: arcQueue =>
      let prunedVariable := (relation arc).1 in
      match revise arc csp with
      | Returns (true, csp) =>
          match domain_of csp prunedVariable with
          | None => Raise
          | Some d =>
              if length d =? 0 then Done false csp
              else Continue (arcQueue ++ arcsWithRespectTo prunedVariable csp) csp
          end
      | Returns (false, csp) => Continue arcQueue csp
      | _ => Raise
      end
  end.

Fixpoint ac3_loop (fuel : nat) (arcQueue : list (Arc T)) (csp : CSP T)
    : outcome (bool * CSP T) :=
  match fuel with
  | 0 => OutOfFuel
  | S fuel =>
      match ac3_step arcQueue csp with
      | Continue arcQueue csp => ac3_loop fuel arcQueue csp
      | Done result csp => Returns (result, csp)
      | Raise => Throws
      end
  end.

(** The state after [n] turns of the loop, while it is still running. *)
Fixpoint ac3_iter (n : nat) (arcQueue : list (Arc T)) (csp : CSP T)
    : option (list (Arc T) * CSP T) :=
  match n with
  | 0 => Some (arcQueue, csp)
  | S n =>
      match ac3_step arcQueue csp with
      | Continue arcQueue csp => ac3_iter n arcQueue csp
      | _ => None
      end
  end.

(** The number of values held by all arrays of the store. *)
Definition store_size (csp : CSP T) : nat :=
  map_fold (λ _ (d : list T) n, length d + n) 0 (store csp).

(** A bound on the number of turns of the loop from a state (see
    [ac3_step_bound] and [ac3_loop_fuel_enough]). *)
Definition loop_bound (arcQueue : list (Arc T)) (csp : CSP T) : nat :=
  store_size csp * S (length (arcs csp)) + length arcQueue.

Definition ac3 (csp : CSP T) : outcome (bool * CSP T) :=
  let arcQueue := makeArcsSymmetric (arcs csp) in
  ac3_loop (S (loop_bound arcQueue csp)) arcQueue csp.

End ac3.

(** ** Vocabulary of the properties *)

Section vocabulary.
Context {T : Type} `{JsValue T}.
Implicit Types (csp : CSP T) (arc : Arc T) (arcQueue : list (Arc T))
  (d pd rd : list T) (c : T → T → bool).

(** The test of [revise], read positively: [find] gave a truthy value. *)
Definition supported c rd (p : T) : bool :=
  negb (js_not (array_find (c p) rd)).

(** A CSP with the contents of its arrays replaced. *)
Definition with_store csp (st : gmap loc (list T)) : CSP T :=
  {| variables := variables csp; domains := domains csp;
     arcs := arcs csp; store := st |}.

(** The invariant the specification asks of a CSP: the variables of every
    arc have a domain. *)
Definition arc_has_domains csp arc : Prop :=
  is_Some (domain_of csp (relation arc).1) ∧
  is_Some (domain_of csp (relation arc).2).

Definition csp_wf csp : Prop := Forall (arc_has_domains csp) (arcs csp).

(** [csp'] is [csp] with some arrays replaced by subsequences. *)
Definition shrinks csp csp' : Prop :=
  variables csp' = variables csp ∧
  domains csp' = domains csp ∧
  arcs csp' = arcs csp ∧
  ∀ l, option_Forall2 (λ d' d : list T, d' `sublist_of` d)
         (store csp' !! l) (store csp !! l).

(** The state invariant of the loop. *)
Definition loop_wf arcQueue csp : Prop :=
  csp_wf csp ∧ Forall (arc_has_domains csp) arcQueue.

(** Arc consistency over the symmetric arc list: every value of the
    pruned variable of an arc has a support in the domain of the respect
    variable. *)
Definition arc_consistent csp : Prop :=
  ∀ arc, arc ∈ makeArcsSymmetric (arcs csp) →
  ∀ da a, domain_of csp (relation arc).1 = Some da → a ∈ da →
  ∃ db b, domain_of csp (relation arc).2 = Some db ∧ b ∈ db ∧
          constraint arc a b = true.

End vocabulary.

Section vocabulary_more.
Context {T : Type} `{JsValue T}.
Implicit Types (csp : CSP T) (arc : Arc T) (arcQueue : list (Arc T)).

(** The queue holds arcs of the symmetric list only. *)
Definition queue_of csp arcQueue : Prop :=
  Forall (λ arc, arc ∈ makeArcsSymmetric (arcs csp)) arcQueue.

(** No array is the domain of two variables. *)
Definition no_shared_arrays csp : Prop :=
  ∀ v w l, domains csp !! v = Some l → domains csp !! w = Some l → v = w.

(** The test of [revise] passes for every value of the pruned variable. *)
Definition arc_settled csp arc : Prop :=
  ∀ pd a, domain_of csp (relation arc).1 = Some pd → a ∈ pd →
    ∃ rd, domain_of csp (relation arc).2 = Some rd ∧
          supported (constraint arc) rd a = true.

(** No array holds a falsy value. *)
Definition all_truthy csp : Prop :=
  ∀ l d, store csp !! l = Some d → Forall (λ v, truthy v = true) d.

End vocabulary_more.

(** ** Concrete problems over numbers *)

Module Examples.

Definition X : Var := "X".
Definition Y : Var := "Y".
Definition P : Var := "P".
Definition Q : Var := "Q".
Definition R : Var := "R".

(** Scenario 1 of the specification: [X < Y] over [1..3]. *)
Definition less_csp : CSP Z :=
  {| variables := [X; Y];
     domains := {[ X := 0; Y := 1 ]};
     arcs := [ mkArc (X, Y) Z.ltb ];
     store := {[ 0 := [1; 2; 3]%Z; 1 := [1; 2; 3]%Z ]} |}.

(** Three variables chained by equalities, [P = Q] and [R = P]. *)
Definition chain_csp : CSP Z :=
  {| variables := [P; Q; R];
     domains := {[ P := 0; Q := 1; R := 2 ]};
     arcs := [ mkArc (P, Q) Z.eqb; mkArc (R, P) Z.eqb ];
     store := {[ 0 := [1; 2]%Z; 1 := [1; 2]%Z; 2 := [1]%Z ]} |}.

(** One array object shared by two variables. *)
Definition shared_csp : CSP Z :=
  {| variables := [X; Y];
     domains := {[ X := 0; Y := 0 ]};
     arcs := [ mkArc (X, Y) Z.ltb ];
     store := {[ 0 := [1; 2]%Z ]} |}.

(** The value [0] supported by the value [0]. *)
Definition zero_csp : CSP Z :=
  {| variables := [X; Y];
     domains := {[ X := 0; Y := 1 ]};
     arcs := [ mkArc (X, Y) Z.eqb ];
     store := {[ 0 := [0]%Z; 1 := [0]%Z ]} |}.

(** No arcs, and a variable whose domain is empty. *)
Definition free_csp : CSP Z :=
  {| variables := [X; Y];
     domains := {[ X := 0; Y := 1 ]};
     arcs := [];
     store := {[ 0 := []; 1 := [1; 2]%Z ]} |}.

(** An arc no pair of values satisfies. *)
Definition never_csp : CSP Z :=
  {| variables := [X; Y];
     domains := {[ X := 0; Y := 1 ]};
     arcs := [ mkArc (X, Y) Z.ltb; mkArc (Y, X) (λ _ _, false) ];
     store := {[ 0 := [1; 2]%Z; 1 := [2; 3]%Z ]} |}.

(** The state of [chain_csp] after a run. *)
Definition chain_csp_after : CSP Z :=
  with_store chain_csp {[ 0 := [1]%Z; 1 := [1; 2]%Z; 2 := [1]%Z ]}.

End Examples.

Module MoreExamples.
Import Examples.

Definition W : Var := "W".

(** [X < Y] after propagation: every value has a support. *)
Definition settled_csp : CSP Z :=
  {| variables := [X; Y];
     domains := {[ X := 0; Y := 1 ]};
     arcs := [ mkArc (X, Y) Z.ltb ];
     store := {[ 0 := [1; 2]%Z; 1 := [2; 3]%Z ]} |}.

(** A variable [W] that no arc names. *)
Definition spare_csp : CSP Z :=
  {| variables := [X; Y; W];
     domains := {[ X := 0; Y := 1; W := 2 ]};
     arcs := [ mkArc (X, Y) Z.ltb ];
     store := {[ 0 := [1; 2; 3]%Z; 1 := [1; 2; 3]%Z; 2 := [7]%Z ]} |}.

(** An arc whose pruned variable [W] has no entry in [domains]. *)
Definition missing_csp : CSP Z :=
  {| variables := [X; Y];
     domains := {[ X := 0; Y := 1 ]};
     arcs := [ mkArc (W, X) Z.ltb ];
     store := {[ 0 := [1; 2]%Z; 1 := [2; 3]%Z ]} |}.

(** Scenario 3 of the specification: an empty domain joined to a
    non-empty one. *)
Definition empty_side_csp : CSP Z :=
  {| variables := [X; Y];
     domains := {[ X := 0; Y := 1 ]};
     arcs := [ mkArc (X, Y) Z.ltb ];
     store := {[ 0 := []; 1 := [1; 2]%Z ]} |}.

End MoreExamples.

(** ** Arrays: [push] in a loop, [find], the removal set *)

Section arrays.
Context {T : Type} `{JsValue T}.
Implicit Types (d pd rd vs : list T) (c : T → T → bool).

Lemma foldl_push {A B} (f : A → B) (l : list A) (acc : list B) :
  foldl (λ acc a, acc ++ [f a]) acc l = acc ++ (f <$> l).
Proof.
  revert acc. induction l as [|a l IH]; intros acc; simpl.
  - by rewrite app_nil_r.
  - rewrite IH. by rewrite <- app_assoc.
Qed.

Lemma foldl_push_if {A} (keep : A → bool) (l acc : list A) :
  foldl (λ acc a, if keep a then acc ++ [a] else acc) acc l
  = acc ++ filter (λ a, keep a) l.
Proof.
  revert acc. induction l as [|a l IH]; intros acc; simpl.
  - by rewrite app_nil_r.
  - rewrite IH, filter_cons. destruct (keep a); simpl.
    + by rewrite <- app_assoc.
    + done.
Qed.

Lemma filter_ext_in {A} (P1 P2 : A → Prop)
    `{!∀ x, Decision (P1 x), !∀ x, Decision (P2 x)} (l : list A) :
  (∀ x, x ∈ l → P1 x ↔ P2 x) → filter P1 l = filter P2 l.
Proof.
  induction l as [|a l IH]; intros Hiff; [done|].
  rewrite !filter_cons.
  assert (P1 a ↔ P2 a) as Ha by (apply Hiff; left).
  rewrite IH by (intros x Hx; apply Hiff; by right).
  destruct (decide (P1 a)), (decide (P2 a)); tauto.
Qed.

Lemma filter_all {A} (P : A → Prop) `{!∀ x, Decision (P x)} (l : list A) :
  Forall P l → filter P l = l.
Proof.
  induction 1 as [|a l Ha _ IH]; [done|].
  by rewrite filter_cons_True, IH.
Qed.

Lemma filter_length_eq {A} (P : A → Prop) `{!∀ x, Decision (P x)} (l : list A) :
  length (filter P l) = length l → Forall P l.
Proof.
  induction l as [|a l IH]; [constructor|].
  rewrite filter_cons. destruct (decide (P a)); simpl; intros Hlen.
  - constructor; [done|]. apply IH. lia.
  - pose proof (length_filter P l). lia.
Qed.

Lemma array_find_Some {A} (f : A → bool) (l : list A) x :
  array_find f l = Some x → x ∈ l ∧ f x = true.
Proof.
  induction l as [|a l IH]; simpl; [done|].
  destruct (f a) eqn:Hfa.
  - intros [= <-]. split; [left | done].
  - intros Hx. destruct (IH Hx). split; [by right | done].
Qed.

Lemma array_find_None {A} (f : A → bool) (l : list A) :
  array_find f l = None ↔ ∀ x, x ∈ l → f x = false.
Proof.
  induction l as [|a l IH]; simpl.
  - split; [intros _ x Hx; inversion Hx | done].
  - destruct (f a) eqn:Hfa.
    + split; [done|]. intros Hall. specialize (Hall a). rewrite Hfa in Hall.
      discriminate Hall. left.
    + rewrite IH. split.
      * intros Hall x Hx. inversion Hx; subst; auto.
      * intros Hall x Hx. apply Hall. by right.
Qed.

Lemma set_has_true vs v : set_has vs v = true ↔ v ∈ vs.
Proof. unfold set_has. apply bool_decide_eq_true. Qed.

Lemma elem_of_set_add v w vs : w ∈ set_add v vs ↔ w = v ∨ w ∈ vs.
Proof.
  unfold set_add. destruct (set_has vs v) eqn:Hhas.
  - apply set_has_true in Hhas. split; [by right|]. by intros [->|].
  - rewrite elem_of_app, list_elem_of_singleton. tauto.
Qed.

End arrays.

(** ** The revise step *)

Section revise_theory.
Context {T : Type} `{JsValue T}.
Implicit Types (csp : CSP T) (arc : Arc T) (d pd rd vs : list T)
  (c : T → T → bool).

Lemma with_store_id csp : with_store csp (store csp) = csp.
Proof. by destruct csp. Qed.

Lemma supported_sound c rd p :
  supported c rd p = true → ∃ r, r ∈ rd ∧ c p r = true.
Proof.
  unfold supported, js_not.
  destruct (array_find (c p) rd) as [r|] eqn:Hfind; [|done].
  intros _. exists r. by apply array_find_Some.
Qed.

(** When no value of the respect domain is falsy, the test is exact. *)
Lemma supported_complete c rd p r :
  Forall (λ v, truthy v = true) rd →
  r ∈ rd → c p r = true → supported c rd p = true.
Proof.
  intros Htruthy Hr Hc. unfold supported, js_not.
  destruct (array_find (c p) rd) as [r'|] eqn:Hfind.
  - apply array_find_Some in Hfind as [Hr' _].
    rewrite Forall_forall in Htruthy. by rewrite (Htruthy r' Hr').
  - rewrite array_find_None in Hfind. rewrite (Hfind r Hr) in Hc. done.
Qed.

Lemma pruneDomain_filter d vs : pruneDomain d vs = filter (λ v, v ∉ vs) d.
Proof.
  unfold pruneDomain. rewrite foldl_push_if. simpl.
  apply filter_ext_in. intros v _.
  destruct (set_has vs v) eqn:Hhas; simpl.
  - apply set_has_true in Hhas. tauto.
  - split; [|done]. intros _ Hv. apply set_has_true in Hv. congruence.
Qed.

Lemma revise_scan_Some c rd pd vs revised :
  ∃ vs', revise_scan c (Some rd) pd vs revised
           = Some (vs', revised || negb (forallb (supported c rd) pd))
       ∧ ∀ v, v ∈ vs' ↔ v ∈ vs ∨ (v ∈ pd ∧ supported c rd v = false).
Proof.
  revert vs revised. induction pd as [|p pd IH]; intros vs revised; simpl.
  - exists vs. rewrite orb_false_r. split; [done|].
    intros v. split; [by left|]. intros [|[Hv _]]; [done|inversion Hv].
  - unfold supported at 1.
    destruct (js_not (array_find (c p) rd)) eqn:Hp; simpl.
    + destruct (IH (set_add p vs) true) as (vs' & -> & Hvs').
      exists vs'. rewrite orb_true_r. split; [done|].
      intros v. rewrite Hvs', elem_of_set_add, elem_of_cons.
      split.
      * intros [[->|]|[]]; [right|by left|right]; split; try done.
        -- by left.
        -- unfold supported. by rewrite Hp.
        -- by right.
      * intros [|[[->|] ?]]; [left; by right|left; by left|by right].
    + destruct (IH vs revised) as (vs' & -> & Hvs').
      exists vs'. split; [done|].
      intros v. rewrite Hvs', elem_of_cons. split.
      * intros [|[]]; [by left|right]. split; [by right|done].
      * intros [|[[->|] Hs]]; [by left| |by right].
        unfold supported in Hs. rewrite Hp in Hs. done.
Qed.

Lemma revise_scan_None c pd vs revised :
  revise_scan c None pd vs revised
  = match pd with [] => Some (vs, revised) | _ => None end.
Proof. by destruct pd. Qed.

(** [revise] on an arc whose two variables have domains. *)
Lemma revise_eq arc csp lp pd rd :
  domains csp !! (relation arc).1 = Some lp →
  store csp !! lp = Some pd →
  domain_of csp (relation arc).2 = Some rd →
  revise arc csp
  = Returns (negb (forallb (supported (constraint arc) rd) pd),
             with_store csp
               (<[lp := filter (λ v, supported (constraint arc) rd v) pd]> (store csp))).
Proof.
  intros Hlp Hpd Hrd. unfold revise.
  destruct (relation arc) as [p r]; simpl in *.
  rewrite Hlp, Hpd, Hrd.
  destruct (revise_scan_Some (constraint arc) rd pd [] false) as (vs & -> & Hvs).
  simpl. do 3 f_equal. unfold with_store. do 2 f_equal.
  rewrite pruneDomain_filter. apply filter_ext_in. intros v Hv.
  rewrite Hvs. destruct (supported (constraint arc) rd v); simpl.
  - split; [done|]. intros _ [Hnil|[_ ?]]; [inversion Hnil|done].
  - split; [|done]. intros Hn. apply Hn. by right.
Qed.

(** What a returning [revise] did. *)
Lemma revise_inv arc csp b csp' :
  revise arc csp = Returns (b, csp') →
  ∃ lp pd pd',
    domains csp !! (relation arc).1 = Some lp ∧
    store csp !! lp = Some pd ∧
    csp' = with_store csp (<[lp := pd']> (store csp)) ∧
    ((pd = [] ∧ pd' = [] ∧ b = false) ∨
     (∃ rd, domain_of csp (relation arc).2 = Some rd ∧
            pd' = filter (λ v, supported (constraint arc) rd v) pd ∧
            b = negb (forallb (supported (constraint arc) rd) pd))).
Proof.
  intros Hrev.
  destruct (domains csp !! (relation arc).1) as [lp|] eqn:Hlp;
    [|unfold revise in Hrev; destruct (relation arc); simpl in *;
      by rewrite Hlp in Hrev].
  destruct (store csp !! lp) as [pd|] eqn:Hpd;
    [|unfold revise in Hrev; destruct (relation arc); simpl in *;
      by rewrite Hlp, Hpd in Hrev].
  destruct (domain_of csp (relation arc).2) as [rd|] eqn:Hrd.
  - rewrite (revise_eq _ _ _ _ _ Hlp Hpd Hrd) in Hrev.
    injection Hrev as <- <-. exists lp, pd. eexists.
    repeat split; try done. right. by exists rd.
  - unfold revise in Hrev. destruct (relation arc) as [p r]; simpl in *.
    rewrite Hlp, Hpd, Hrd, revise_scan_None in Hrev.
    destruct pd; [|done]. injection Hrev as <- <-.
    exists lp, [], []. repeat split; try done. by left.
Qed.

Lemma forallb_supported_filter c rd pd :
  forallb (supported c rd) pd = true →
  filter (λ v, supported c rd v) pd = pd.
Proof.
  intros Hall. apply filter_all. rewrite Forall_forall. intros v Hv.
  rewrite forallb_forall in Hall. apply Is_true_true, Hall.
  by apply list_elem_of_In.
Qed.

Lemma forallb_supported_shrinks c rd pd :
  forallb (supported c rd) pd = false →
  length (filter (λ v, supported c rd v) pd) < length pd.
Proof.
  intros Hall. pose proof (length_filter (λ v, supported c rd v) pd) as Hle.
  destruct (decide (length (filter (λ v, supported c rd v) pd) = length pd))
    as [Heq|]; [|lia].
  apply filter_length_eq in Heq. rewrite Forall_forall in Heq.
  assert (forallb (supported c rd) pd = true); [|congruence].
  apply forallb_forall. intros v Hv. apply Is_true_true, Heq.
  by apply list_elem_of_In.
Qed.

(** The summary used by the loop: only the array of the pruned variable is
    written; it is left as it was when [revise] returns false, and gets
    strictly shorter when [revise] returns true. *)
Lemma revise_effect arc csp b csp' :
  revise arc csp = Returns (b, csp') →
  ∃ lp pd pd',
    domains csp !! (relation arc).1 = Some lp ∧
    store csp !! lp = Some pd ∧
    csp' = with_store csp (<[lp := pd']> (store csp)) ∧
    pd' `sublist_of` pd ∧
    (b = false → pd' = pd) ∧
    (b = true → length pd' < length pd).
Proof.
  intros Hrev. apply revise_inv in Hrev
    as (lp & pd & pd' & Hlp & Hpd & -> & Hcases).
  exists lp, pd, pd'. repeat split; try done.
  - destruct Hcases as [(-> & -> & _)|(rd & _ & -> & _)]; [done|].
    apply sublist_filter.
  - intros ->. destruct Hcases as [(-> & -> & _)|(rd & _ & -> & Hb)]; [done|].
    apply forallb_supported_filter. by destruct (forallb _ pd).
  - intros ->. destruct Hcases as [(_ & _ & ?)|(rd & _ & -> & Hb)]; [done|].
    apply forallb_supported_shrinks. by destruct (forallb _ pd).
Qed.

Lemma revise_false_unchanged arc csp csp' :
  revise arc csp = Returns (false, csp') → csp' = csp.
Proof.
  intros Hrev. apply revise_effect in Hrev
    as (lp & pd & pd' & _ & Hpd & -> & _ & Hsame & _).
  rewrite Hsame by done. rewrite insert_id by done. apply with_store_id.
Qed.

End revise_theory.

(** ** The worklist loop *)

Section loop_theory.
Context {T : Type} `{JsValue T}.
Implicit Types (csp : CSP T) (arc : Arc T) (arcQueue : list (Arc T))
  (d pd rd : list T).

Lemma shrinks_refl csp : shrinks csp csp.
Proof.
  repeat split. intros l. destruct (store csp !! l); by constructor.
Qed.

Lemma shrinks_trans csp1 csp2 csp3 :
  shrinks csp1 csp2 → shrinks csp2 csp3 → shrinks csp1 csp3.
Proof.
  intros (Hv1 & Hd1 & Ha1 & Hs1) (Hv2 & Hd2 & Ha2 & Hs2).
  repeat split; try congruence.
  intros l. specialize (Hs1 l). specialize (Hs2 l).
  destruct Hs2 as [d3 d2 H32|]; inversion Hs1; subst; constructor.
  by etrans.
Qed.

Lemma shrinks_insert csp lp pd pd' :
  store csp !! lp = Some pd → pd' `sublist_of` pd →
  shrinks csp (with_store csp (<[lp := pd']> (store csp))).
Proof.
  intros Hpd Hsub. repeat split. intros l. simpl.
  destruct (decide (lp = l)) as [->|Hne].
  - rewrite lookup_insert_eq, Hpd. by constructor.
  - rewrite lookup_insert_ne by done. destruct (store csp !! l); by constructor.
Qed.

Lemma shrinks_domain_of csp csp' v :
  shrinks csp csp' →
  option_Forall2 (λ d' d : list T, d' `sublist_of` d)
    (domain_of csp' v) (domain_of csp v).
Proof.
  intros (_ & Hd & _ & Hs). unfold domain_of. rewrite Hd.
  destruct (domains csp !! v) as [l|]; simpl; [apply Hs|constructor].
Qed.

Lemma shrinks_arc_has_domains csp csp' arc :
  shrinks csp csp' → arc_has_domains csp arc → arc_has_domains csp' arc.
Proof.
  intros Hsh [[d1 H1] [d2 H2]].
  pose proof (shrinks_domain_of _ _ (relation arc).1 Hsh) as Hs1.
  pose proof (shrinks_domain_of _ _ (relation arc).2 Hsh) as Hs2.
  rewrite H1 in Hs1. rewrite H2 in Hs2.
  inversion Hs1; inversion Hs2. by split.
Qed.

Lemma shrinks_wf csp csp' : shrinks csp csp' → csp_wf csp → csp_wf csp'.
Proof.
  intros Hsh Hwf. unfold csp_wf.
  pose proof Hsh as (_ & _ & Ha & _). rewrite Ha.
  eapply Forall_impl; [exact Hwf|]. intros arc.
  by apply shrinks_arc_has_domains.
Qed.

Lemma revise_shrinks arc csp b csp' :
  revise arc csp = Returns (b, csp') → shrinks csp csp'.
Proof.
  intros Hrev. apply revise_effect in Hrev
    as (lp & pd & pd' & _ & Hpd & -> & Hsub & _).
  by eapply shrinks_insert.
Qed.

Lemma revise_no_throw arc csp :
  arc_has_domains csp arc → ∃ b csp', revise arc csp = Returns (b, csp').
Proof.
  intros [[pd Hpd] [rd Hrd]]. unfold domain_of in Hpd.
  destruct (domains csp !! (relation arc).1) as [lp|] eqn:Hlp; [|done].
  simpl in Hpd. rewrite (revise_eq _ _ _ _ _ Hlp Hpd Hrd). by eexists _, _.
Qed.

(** *** Case analysis of one turn *)

Lemma ac3_step_Continue arcQueue csp arcQueue' csp' :
  ac3_step arcQueue csp = Continue arcQueue' csp' →
  ∃ arc rest, arcQueue = arc :: rest ∧
    ((revise arc csp = Returns (false, csp') ∧ arcQueue' = rest) ∨
     (revise arc csp = Returns (true, csp') ∧
      arcQueue' = rest ++ arcsWithRespectTo (relation arc).1 csp' ∧
      ∃ d, domain_of csp' (relation arc).1 = Some d ∧ d ≠ [])).
Proof.
  destruct arcQueue as [|arc rest]; simpl; [done|].
  destruct (revise arc csp) as [[[] csp'']| |] eqn:Hrev; try done.
  - destruct (domain_of csp'' (relation arc).1) as [d|] eqn:Hd; [|done].
    destruct d; simpl; [done|]. intros [= <- <-].
    exists arc, rest. split; [done|]. right. repeat split; try done.
    by eexists.
  - intros [= <- <-]. exists arc, rest. split; [done|]. by left.
Qed.

Lemma ac3_step_Done arcQueue csp b csp' :
  ac3_step arcQueue csp = Done b csp' →
  (arcQueue = [] ∧ b = true ∧ csp' = csp) ∨
  (∃ arc rest, arcQueue = arc :: rest ∧ b = false ∧
     revise arc csp = Returns (true, csp') ∧
     domain_of csp' (relation arc).1 = Some []).
Proof.
  destruct arcQueue as [|arc rest]; simpl.
  - intros [= <- <-]. by left.
  - destruct (revise arc csp) as [[[] csp'']| |] eqn:Hrev; try done.
    destruct (domain_of csp'' (relation arc).1) as [d|] eqn:Hd; [|done].
    destruct d; simpl; [|done]. intros [= <- <-].
    right. by exists arc, rest.
Qed.

Lemma revise_domain_after arc csp b csp' :
  revise arc csp = Returns (b, csp') →
  is_Some (domain_of csp' (relation arc).1).
Proof.
  intros Hrev. apply revise_effect in Hrev
    as (lp & pd & pd' & Hlp & Hpd & -> & _).
  unfold domain_of. simpl. rewrite Hlp. simpl.
  rewrite lookup_insert_eq. by eexists.
Qed.

Lemma ac3_step_no_Raise arcQueue csp :
  Forall (arc_has_domains csp) arcQueue → ac3_step arcQueue csp ≠ Raise.
Proof.
  destruct arcQueue as [|arc rest]; simpl; [done|].
  intros Hq. apply Forall_cons in Hq as [Harc _].
  destruct (revise_no_throw _ _ Harc) as (b & csp' & Hrev). rewrite Hrev.
  destruct b; [|done].
  destruct (revise_domain_after _ _ _ _ Hrev) as [d ->].
  by destruct d.
Qed.

Lemma ac3_step_shrinks arcQueue csp :
  match ac3_step arcQueue csp with
  | Continue _ csp' | Done _ csp' => shrinks csp csp'
  | Raise => True
  end.
Proof.
  destruct (ac3_step arcQueue csp) as [q' csp'|b csp'|] eqn:Hstep; [| |done].
  - apply ac3_step_Continue in Hstep as (arc & rest & -> & [[Hrev _]|[Hrev _]]);
      by eapply revise_shrinks.
  - apply ac3_step_Done in Hstep
      as [(_ & _ & ->)|(arc & rest & _ & _ & Hrev & _)];
      [apply shrinks_refl | by eapply revise_shrinks].
Qed.

(** *** The queue only holds arcs whose variables have domains *)

Lemma reverse_arc_has_domains csp arc :
  arc_has_domains csp arc → arc_has_domains csp (reverse_arc arc).
Proof.
  unfold arc_has_domains, reverse_arc.
  destruct (relation arc) as [p r]; simpl. tauto.
Qed.

Lemma makeArcsSymmetric_app (arcsArg : list (Arc T)) :
  makeArcsSymmetric arcsArg = arcsArg ++ (reverse_arc <$> arcsArg).
Proof. unfold makeArcsSymmetric. apply foldl_push. Qed.

Lemma makeArcsSymmetric_has_domains csp :
  csp_wf csp → Forall (arc_has_domains csp) (makeArcsSymmetric (arcs csp)).
Proof.
  intros Hwf. rewrite makeArcsSymmetric_app. apply Forall_app. split; [done|].
  apply Forall_fmap. eapply Forall_impl; [exact Hwf|]. intros arc. simpl.
  apply reverse_arc_has_domains.
Qed.

Lemma arcsWithRespectTo_has_domains csp v :
  csp_wf csp → Forall (arc_has_domains csp) (arcsWithRespectTo v csp).
Proof.
  intros Hwf. unfold arcsWithRespectTo, csp_wf in *.
  rewrite Forall_forall in *. intros arc Harc.
  apply list_elem_of_filter in Harc as [_ Harc]. by apply Hwf.
Qed.

Lemma ac3_step_wf arcQueue csp arcQueue' csp' :
  loop_wf arcQueue csp →
  ac3_step arcQueue csp = Continue arcQueue' csp' →
  loop_wf arcQueue' csp'.
Proof.
  intros [Hwf Hq] Hstep.
  pose proof (ac3_step_shrinks arcQueue csp) as Hsh. rewrite Hstep in Hsh.
  assert (csp_wf csp') as Hwf' by by eapply shrinks_wf.
  split; [done|].
  apply ac3_step_Continue in Hstep
    as (arc & rest & -> & [[_ ->]|(_ & -> & _)]);
    apply Forall_cons in Hq as [_ Hrest].
  - eapply Forall_impl; [exact Hrest|]. intros a.
    by apply shrinks_arc_has_domains.
  - apply Forall_app. split.
    + eapply Forall_impl; [exact Hrest|]. intros a.
      by apply shrinks_arc_has_domains.
    + by apply arcsWithRespectTo_has_domains.
Qed.

End loop_theory.

(** ** Termination of the loop *)

Section termination.
Context {T : Type} `{JsValue T}.
Implicit Types (csp : CSP T) (arc : Arc T) (arcQueue : list (Arc T)).

Lemma store_size_insert csp lp (pd pd' : list T) :
  store csp !! lp = Some pd →
  store_size (with_store csp (<[lp := pd']> (store csp))) + length pd
  = store_size csp + length pd'.
Proof.
  intros Hpd. unfold store_size. simpl.
  rewrite (map_fold_delete_L _ _ lp pd (store csp)); [|intros; lia|done].
  rewrite <- insert_delete_eq.
  rewrite map_fold_insert_L; [lia|intros; lia|apply lookup_delete_eq].
Qed.

Lemma arcsWithRespectTo_length v csp :
  length (arcsWithRespectTo v csp) ≤ length (arcs csp).
Proof. apply length_filter. Qed.

(** A turn that continues lowers the bound: either the queue lost its head
    and nothing else changed, or an array lost a value and the queue grew
    by at most the arcs of the CSP. *)
Lemma ac3_step_bound arcQueue csp arcQueue' csp' :
  ac3_step arcQueue csp = Continue arcQueue' csp' →
  loop_bound arcQueue' csp' < loop_bound arcQueue csp.
Proof.
  intros Hstep. apply ac3_step_Continue in Hstep
    as (arc & rest & -> & [[Hrev ->]|(Hrev & -> & _)]).
  - apply revise_false_unchanged in Hrev as ->.
    unfold loop_bound. simpl. lia.
  - apply revise_effect in Hrev
      as (lp & pd & pd' & _ & Hpd & -> & _ & _ & Hlt).
    specialize (Hlt eq_refl).
    pose proof (store_size_insert csp lp pd pd' Hpd) as Hsize.
    pose proof (arcsWithRespectTo_length (relation arc).1
                  (with_store csp (<[lp := pd']> (store csp)))) as Hlen.
    unfold loop_bound. rewrite length_app. simpl in *.
    set (s' := store_size (with_store csp (<[lp := pd']> (store csp)))) in *.
    set (n := length (arcs csp)) in *.
    assert (S s' ≤ store_size csp) as Hs by lia.
    assert (S s' * S n ≤ store_size csp * S n) as Hmul
      by (apply Nat.mul_le_mono_r; exact Hs).
    lia.
Qed.

(** More fuel does not change a result. *)
Lemma ac3_loop_fuel_mono fuel fuel' arcQueue csp r :
  fuel ≤ fuel' →
  ac3_loop fuel arcQueue csp = Returns r →
  ac3_loop fuel' arcQueue csp = Returns r.
Proof.
  revert fuel' arcQueue csp. induction fuel as [|fuel IH];
    intros fuel' arcQueue csp Hle; simpl; [done|].
  destruct fuel' as [|fuel']; [lia|]. simpl.
  destruct (ac3_step arcQueue csp); try done.
  apply IH. lia.
Qed.

(** With fuel above the bound the loop returns, and what it returns is a
    shrunk CSP. *)
Lemma ac3_loop_returns fuel arcQueue csp :
  loop_wf arcQueue csp →
  loop_bound arcQueue csp < fuel →
  ∃ b csp', ac3_loop fuel arcQueue csp = Returns (b, csp').
Proof.
  revert arcQueue csp. induction fuel as [|fuel IH];
    intros arcQueue csp Hwf Hfuel; [lia|]. simpl.
  destruct (ac3_step arcQueue csp) as [q' csp'|b csp'|] eqn:Hstep.
  - apply IH; [by eapply ac3_step_wf|].
    apply ac3_step_bound in Hstep. lia.
  - by eexists _, _.
  - destruct Hwf as [_ Hq]. by apply ac3_step_no_Raise in Hq.
Qed.

(** The fuel [ac3] gives its loop is never used up, on any CSP. *)
Lemma ac3_loop_fuel_enough fuel arcQueue csp :
  loop_bound arcQueue csp < fuel → ac3_loop fuel arcQueue csp ≠ OutOfFuel.
Proof.
  revert arcQueue csp. induction fuel as [|fuel IH];
    intros arcQueue csp Hfuel; [lia|]. simpl.
  destruct (ac3_step arcQueue csp) as [q' csp'|b csp'|] eqn:Hstep; [|done..].
  apply IH. apply ac3_step_bound in Hstep. lia.
Qed.

Lemma ac3_not_OutOfFuel csp : ac3 csp ≠ OutOfFuel.
Proof. apply ac3_loop_fuel_enough. lia. Qed.

(** Partial correctness rule of the loop: an invariant of the turns holds
    of every state met, and a property of all final turns holds of the
    result. *)
Lemma ac3_loop_invariant (I : list (Arc T) → CSP T → Prop)
    (Post : bool → CSP T → Prop) :
  (∀ arcQueue csp, I arcQueue csp →
     match ac3_step arcQueue csp with
     | Continue arcQueue' csp' => I arcQueue' csp'
     | Done b csp' => Post b csp'
     | Raise => True
     end) →
  ∀ fuel arcQueue csp b csp',
    I arcQueue csp →
    ac3_loop fuel arcQueue csp = Returns (b, csp') → Post b csp'.
Proof.
  intros Hturn. induction fuel as [|fuel IH];
    intros arcQueue csp b csp' HI; simpl; [done|].
  specialize (Hturn arcQueue csp HI).
  destruct (ac3_step arcQueue csp) as [q' csp''|b' csp''|]; [| |done].
  - by apply IH.
  - by intros [= <- <-].
Qed.

Lemma ac3_iter_invariant (I : list (Arc T) → CSP T → Prop) :
  (∀ arcQueue csp arcQueue' csp', I arcQueue csp →
     ac3_step arcQueue csp = Continue arcQueue' csp' → I arcQueue' csp') →
  ∀ n arcQueue csp arcQueue' csp',
    I arcQueue csp →
    ac3_iter n arcQueue csp = Some (arcQueue', csp') → I arcQueue' csp'.
Proof.
  intros Hturn. induction n as [|n IH];
    intros arcQueue csp arcQueue' csp' HI; simpl.
  - by intros [= <- <-].
  - destruct (ac3_step arcQueue csp) as [q1 csp1| |] eqn:Hstep; [|done..].
    apply IH. by eapply Hturn.
Qed.

Lemma ac3_loop_shrinks fuel arcQueue csp b csp' :
  ac3_loop fuel arcQueue csp = Returns (b, csp') → shrinks csp csp'.
Proof.
  intros Hloop.
  apply (ac3_loop_invariant (λ _ c, shrinks csp c) (λ _ c, shrinks csp c))
    with (fuel := fuel) (arcQueue := arcQueue) (csp := csp) (b := b);
    [|apply shrinks_refl|done].
  intros q c Hc. pose proof (ac3_step_shrinks q c) as Hstep.
  destruct (ac3_step q c); [| |done]; by eapply shrinks_trans.
Qed.

Lemma ac3_iter_shrinks n arcQueue csp arcQueue' csp' :
  ac3_iter n arcQueue csp = Some (arcQueue', csp') → shrinks csp csp'.
Proof.
  intros Hiter.
  apply (ac3_iter_invariant (λ _ c, shrinks csp c))
    with (n := n) (arcQueue := arcQueue) (csp := csp) (arcQueue' := arcQueue');
    [|apply shrinks_refl|done].
  intros q c q' c' Hc Hstep. pose proof (ac3_step_shrinks q c) as Hsh.
  rewrite Hstep in Hsh. by eapply shrinks_trans.
Qed.

End termination.

(** ** Properties of the module *)

Section properties.
Context {T : Type} `{JsValue T}.
Implicit Types (csp : CSP T) (arc : Arc T) (arcQueue : list (Arc T)).

(** C4. [makeArcsSymmetric] returns the arcs of its argument followed by
    one reverse arc for each of them, in the same order: the result is
    twice as long, the arc at index [i] is the argument's, and the arc at
    index [length + i] relates the two variables the other way round with
    the constraint's arguments swapped.  The argument is only read: the
    pushes go to the copy made by [slice]. *)
Theorem makeArcsSymmetric_doubles (arcsArg : list (Arc T)) :
  makeArcsSymmetric arcsArg = arcsArg ++ (reverse_arc <$> arcsArg) ∧
  length (makeArcsSymmetric arcsArg) = 2 * length arcsArg ∧
  ∀ i arc, arcsArg !! i = Some arc →
    makeArcsSymmetric arcsArg !! i = Some arc ∧
    ∃ arc', makeArcsSymmetric arcsArg !! (length arcsArg + i) = Some arc' ∧
      relation arc' = ((relation arc).2, (relation arc).1) ∧
      ∀ x y, constraint arc' x y = constraint arc y x.
Proof.
  rewrite makeArcsSymmetric_app. split; [done|]. split.
  - rewrite length_app, length_fmap. lia.
  - intros i arc Hi. split.
    + by apply lookup_app_l_Some.
    + exists (reverse_arc arc). split.
      * rewrite lookup_app_r by lia.
        replace (length arcsArg + i - length arcsArg) with i by lia.
        by rewrite list_lookup_fmap, Hi.
      * unfold reverse_arc. by destruct (relation arc).
Qed.

(** C10. On a CSP without arcs [ac3] returns true and leaves the CSP as it
    was, whatever its domains hold (empty ones included): the queue starts
    empty, so no [revise] runs and the wipeout test is never reached. *)
Theorem ac3_no_arcs csp :
  arcs csp = [] →
  ac3 csp = Returns (true, csp) ∧
  ∀ fuel, ac3_loop (S fuel) (makeArcsSymmetric (arcs csp)) csp
          = Returns (true, csp).
Proof. intros Harcs. unfold ac3. by rewrite Harcs. Qed.

(** C9. [ac3] terminates on a CSP whose arcs only name variables with a
    domain: every turn of the loop that continues lowers [loop_bound]
    (the queue loses its head, and arcs are pushed only after a [revise]
    that made an array shorter), so the loop returns within
    [loop_bound + 1] turns, with the same result for any larger fuel. *)
Theorem ac3_terminates csp :
  csp_wf csp →
  (∀ arcQueue c arcQueue' c',
     ac3_step arcQueue c = Continue arcQueue' c' →
     loop_bound arcQueue' c' < loop_bound arcQueue c) ∧
  ∃ b csp',
    ac3 csp = Returns (b, csp') ∧
    ∀ fuel, loop_bound (makeArcsSymmetric (arcs csp)) csp < fuel →
      ac3_loop fuel (makeArcsSymmetric (arcs csp)) csp = Returns (b, csp').
Proof.
  intros Hwf. split; [apply ac3_step_bound|].
  assert (loop_wf (makeArcsSymmetric (arcs csp)) csp) as Hloop
    by (split; [done | by apply makeArcsSymmetric_has_domains]).
  destruct (ac3_loop_returns (S (loop_bound (makeArcsSymmetric (arcs csp)) csp))
              _ _ Hloop) as (b & csp' & Hret); [lia|].
  exists b, csp'. split; [exact Hret|].
  intros fuel Hfuel. eapply ac3_loop_fuel_mono; [|exact Hret]. lia.
Qed.

(** C7. Domains only shrink during [ac3]: in the state reached after any
    number of turns, and in the CSP left by a run that returns (true or
    false), the domain of every variable is a subsequence, hence a
    sub-multiset, of the domain the variable had at the call. *)
Theorem ac3_domains_only_shrink csp :
  (∀ n arcQueue c,
     ac3_iter n (makeArcsSymmetric (arcs csp)) csp = Some (arcQueue, c) →
     ∀ v d', domain_of c v = Some d' →
       ∃ d, domain_of csp v = Some d ∧ d' `sublist_of` d ∧ d' ⊆+ d) ∧
  (∀ b c,
     ac3 csp = Returns (b, c) →
     ∀ v d', domain_of c v = Some d' →
       ∃ d, domain_of csp v = Some d ∧ d' `sublist_of` d ∧ d' ⊆+ d).
Proof.
  assert (∀ c, shrinks csp c → ∀ v d', domain_of c v = Some d' →
            ∃ d, domain_of csp v = Some d ∧ d' `sublist_of` d ∧ d' ⊆+ d)
    as Hshrunk.
  { intros c Hsh v d' Hd'.
    pose proof (shrinks_domain_of _ _ v Hsh) as Hv. rewrite Hd' in Hv.
    inversion Hv as [? d Hsub|]; subst. exists d.
    repeat split; [done|by apply sublist_submseteq]. }
  split.
  - intros n q c Hiter. apply Hshrunk. by eapply ac3_iter_shrinks.
  - intros b c Hret. apply Hshrunk. by eapply ac3_loop_shrinks.
Qed.

Lemma domain_of_with_store_insert csp lp (pd' : list T) v :
  domain_of (with_store csp (<[lp := pd']> (store csp))) v
  = l ← domains csp !! v;
    if decide (lp = l) then Some pd' else store csp !! l.
Proof.
  unfold domain_of. simpl. destruct (domains csp !! v) as [l|]; simpl; [|done].
  by rewrite lookup_insert.
Qed.

(** C8, as the code has it.  On an arc whose two variables have domains
    [revise] returns, and it has written one array object, the one the
    pruned variable is mapped to: [csp.variables], [csp.arcs] and the
    [domains] map are as before, every other array of the store is as
    before, and so is the domain of every variable mapped to another
    array.  (A variable mapped to the same array, the respect variable
    included, sees the pruned domain.) *)
Theorem revise_frame arc csp :
  arc_has_domains csp arc →
  ∃ b csp',
    revise arc csp = Returns (b, csp') ∧
    variables csp' = variables csp ∧
    arcs csp' = arcs csp ∧
    domains csp' = domains csp ∧
    (∀ l, domains csp !! (relation arc).1 ≠ Some l →
          store csp' !! l = store csp !! l) ∧
    (∀ v, domains csp !! v ≠ domains csp !! (relation arc).1 →
          domain_of csp' v = domain_of csp v).
Proof.
  intros Hdom. destruct (revise_no_throw _ _ Hdom) as (b & csp' & Hrev).
  exists b, csp'. split; [exact Hrev|].
  apply revise_effect in Hrev as (lp & pd & pd' & Hlp & Hpd & -> & _).
  repeat split.
  - intros l Hl. simpl. apply lookup_insert_ne. congruence.
  - intros v Hv. rewrite domain_of_with_store_insert. unfold domain_of.
    destruct (domains csp !! v) as [l|]; simpl; [|done].
    destruct (decide (lp = l)) as [->|]; [congruence|done].
Qed.

(** *** What [revise] guarantees (C3) *)

(** Every value left in the pruned domain has a support in the respect
    domain as it was at the call. *)
Lemma revise_remaining_supported arc csp b csp' p pd' :
  revise arc csp = Returns (b, csp') →
  domain_of csp' (relation arc).1 = Some pd' → p ∈ pd' →
  ∃ rd r, domain_of csp (relation arc).2 = Some rd ∧ r ∈ rd ∧
          constraint arc p r = true.
Proof.
  intros Hrev Hpd' Hp. apply revise_inv in Hrev
    as (lp & pd & pd0 & Hlp & Hpd & -> & Hcases).
  rewrite domain_of_with_store_insert, Hlp in Hpd'. simpl in Hpd'.
  rewrite decide_True in Hpd' by done. injection Hpd' as <-.
  destruct Hcases as [(_ & -> & _)|(rd & Hrd & -> & _)]; [inversion Hp|].
  apply list_elem_of_filter in Hp as [Hsup _].
  apply Is_true_true, supported_sound in Hsup as (r & Hr & Hc).
  by exists rd, r.
Qed.

(** [revise] returns true exactly when the pruned domain lost a value. *)
Lemma revise_true_iff_removed arc csp b csp' pd pd' :
  revise arc csp = Returns (b, csp') →
  domain_of csp (relation arc).1 = Some pd →
  domain_of csp' (relation arc).1 = Some pd' →
  pd' `sublist_of` pd ∧ (b = true ↔ length pd' < length pd).
Proof.
  intros Hrev Hd Hd'. apply revise_effect in Hrev
    as (lp & pd0 & pd0' & Hlp & Hpd & -> & Hsub & Hfalse & Htrue).
  rewrite domain_of_with_store_insert, Hlp in Hd'. simpl in Hd'.
  rewrite decide_True in Hd' by done. injection Hd' as <-.
  unfold domain_of in Hd. rewrite Hlp in Hd. simpl in Hd.
  rewrite Hpd in Hd. injection Hd as <-.
  split; [done|]. split; [done|].
  destruct b; [done|]. rewrite Hfalse by done. lia.
Qed.

(** A removed value had no support, provided no value of the respect
    domain is falsy. *)
Lemma revise_removed_unsupported arc csp b csp' p pd pd' rd :
  revise arc csp = Returns (b, csp') →
  domain_of csp (relation arc).1 = Some pd →
  domain_of csp (relation arc).2 = Some rd →
  domain_of csp' (relation arc).1 = Some pd' →
  Forall (λ v, truthy v = true) rd →
  p ∈ pd → p ∉ pd' →
  ∀ r, r ∈ rd → constraint arc p r = false.
Proof.
  intros Hrev Hd Hrd Hd' Htruthy Hp Hnp r Hr.
  unfold domain_of in Hd.
  destruct (domains csp !! (relation arc).1) as [lp|] eqn:Hlp; [|done].
  simpl in Hd. rewrite (revise_eq _ _ _ _ _ Hlp Hd Hrd) in Hrev.
  injection Hrev as _ <-.
  rewrite domain_of_with_store_insert, Hlp in Hd'. simpl in Hd'.
  rewrite decide_True in Hd' by done. injection Hd' as <-.
  destruct (constraint arc p r) eqn:Hc; [|done].
  exfalso. apply Hnp. apply list_elem_of_filter. split; [|done].
  apply Is_true_true. by eapply supported_complete.
Qed.

(** *** What a turn pushes (C2) *)

(** After a [revise] that returned true and left the pruned domain
    non-empty, the turn pushes the arcs of [csp.arcs] (the arcs as given,
    not the symmetric list of the queue) whose respect variable is the
    pruned one. *)
Lemma ac3_step_requeue arc rest csp csp' d :
  revise arc csp = Returns (true, csp') →
  domain_of csp' (relation arc).1 = Some d → d ≠ [] →
  ac3_step (arc :: rest) csp
  = Continue (rest ++ filter (λ a, (relation arc).1 = (relation a).2) (arcs csp))
             csp'.
Proof.
  intros Hrev Hd Hne. simpl. rewrite Hrev, Hd.
  destruct d; [done|]. simpl. unfold arcsWithRespectTo.
  apply revise_shrinks in Hrev as (_ & _ & -> & _). done.
Qed.

(** *** Wipeout on an unsatisfiable arc (C6) *)

Lemma revise_unsatisfiable arc csp pd :
  arc_has_domains csp arc →
  (∀ x y, constraint arc x y = false) →
  domain_of csp (relation arc).1 = Some pd → pd ≠ [] →
  ∃ csp', revise arc csp = Returns (true, csp') ∧
          domain_of csp' (relation arc).1 = Some [].
Proof.
  intros [_ [rd Hrd]] Hnever Hpd Hne. unfold domain_of in Hpd.
  destruct (domains csp !! (relation arc).1) as [lp|] eqn:Hlp; [|done].
  simpl in Hpd. rewrite (revise_eq _ _ _ _ _ Hlp Hpd Hrd).
  assert (∀ p, supported (constraint arc) rd p = false) as Hsup.
  { intros p. unfold supported.
    assert (array_find (constraint arc p) rd = None) as ->; [|done].
    apply array_find_None. intros r _. apply Hnever. }
  assert (filter (λ v, supported (constraint arc) rd v) pd = []) as ->.
  { clear Hpd Hne. induction pd as [|p pd IH]; [done|].
    rewrite filter_cons_False; [done|]. rewrite Hsup. by intros []. }
  eexists. split.
  - do 2 f_equal. destruct pd as [|p pd]; [done|]. simpl. by rewrite Hsup.
  - rewrite domain_of_with_store_insert, Hlp. simpl. by rewrite decide_True.
Qed.

(** The loop invariant: the unsatisfiable arc is still queued and its
    pruned variable still has values. *)
Lemma ac3_step_unsatisfiable arc arcQueue csp :
  (∀ x y, constraint arc x y = false) →
  loop_wf arcQueue csp →
  arc ∈ arcQueue →
  (∃ pd, domain_of csp (relation arc).1 = Some pd ∧ pd ≠ []) →
  match ac3_step arcQueue csp with
  | Continue arcQueue' csp' =>
      arc ∈ arcQueue' ∧
      ∃ pd, domain_of csp' (relation arc).1 = Some pd ∧ pd ≠ []
  | Done b _ => b = false
  | Raise => True
  end.
Proof.
  intros Hnever [Hwf Hq] Harc (pd & Hpd & Hne).
  assert (arc_has_domains csp arc) as Hdom
    by (rewrite Forall_forall in Hq; by apply Hq).
  destruct (revise_unsatisfiable _ _ _ Hdom Hnever Hpd Hne)
    as (cspw & Hrevw & Hwipe).
  destruct (ac3_step arcQueue csp) as [q' csp'|b csp'|] eqn:Hstep; [| |done].
  - apply ac3_step_Continue in Hstep as (arc0 & rest & -> & Hcases).
    apply elem_of_cons in Harc as [<-|Hrest].
    { destruct Hcases as [[Hrev _]|(Hrev & _ & d & Hd & Hdne)]; [congruence|].
      rewrite Hrevw in Hrev. injection Hrev as <-. congruence. }
    destruct Hcases as [[Hrev ->]|(Hrev & -> & d & Hd & Hdne)].
    + apply revise_false_unchanged in Hrev as ->. split; [done|]. by exists pd.
    + split; [apply elem_of_app; by left|].
      apply revise_effect in Hrev
        as (lp & pd0 & pd0' & Hlp & Hpd0 & -> & _).
      rewrite domain_of_with_store_insert, Hlp in Hd. simpl in Hd.
      rewrite decide_True in Hd by done. injection Hd as ->.
      rewrite domain_of_with_store_insert. unfold domain_of in Hpd.
      destruct (domains csp !! (relation arc).1) as [l|]; simpl in *; [|done].
      destruct (decide (lp = l)); [by exists d | by exists pd].
  - apply ac3_step_Done in Hstep as [(-> & _)|(_ & _ & _ & -> & _)];
      [inversion Harc | done].
Qed.

(** C6. [ac3] returns false (and does not throw) on a CSP that has an arc
    whose constraint holds of no pair of values, when the domains of the
    two variables of the arc are not empty; the variables of all arcs are
    assumed to have domains, the invariant of a CSP. *)
Theorem ac3_unsatisfiable_arc csp arc pd rd :
  csp_wf csp →
  arc ∈ arcs csp →
  (∀ x y, constraint arc x y = false) →
  domain_of csp (relation arc).1 = Some pd → pd ≠ [] →
  domain_of csp (relation arc).2 = Some rd → rd ≠ [] →
  ∃ csp', ac3 csp = Returns (false, csp').
Proof.
  intros Hwf Harc Hnever Hpd Hpne _ _.
  assert (loop_wf (makeArcsSymmetric (arcs csp)) csp) as Hloop
    by (split; [done | by apply makeArcsSymmetric_has_domains]).
  destruct (ac3_loop_returns (S (loop_bound (makeArcsSymmetric (arcs csp)) csp))
              _ _ Hloop) as (b & csp' & Hret); [lia|].
  exists csp'. unfold ac3. rewrite Hret. do 2 f_equal.
  apply (ac3_loop_invariant
           (λ q c, loop_wf q c ∧ arc ∈ q ∧
                   ∃ pd, domain_of c (relation arc).1 = Some pd ∧ pd ≠ [])
           (λ b _, b = false)) in Hret; [done| |].
  - intros q c (Hlwf & Hin & Hdom).
    pose proof (ac3_step_unsatisfiable arc q c Hnever Hlwf Hin Hdom) as Hturn.
    destruct (ac3_step q c) as [q' c'| |] eqn:Hstep; [|done..].
    split; [by eapply ac3_step_wf | done].
  - split; [done|]. split; [|by exists pd].
    rewrite makeArcsSymmetric_app. apply elem_of_app. by left.
Qed.

End properties.

(** ** The properties on concrete problems *)

Section concrete.
Import Examples.

Ltac solve_wf := unfold csp_wf; simpl; repeat constructor; by eexists.

(** Scenario 1 of the specification. *)
Lemma ac3_less_csp :
  ac3 less_csp
  = Returns (true, with_store less_csp {[ 0 := [1; 2]%Z; 1 := [2; 3]%Z ]}).
Proof. vm_compute. reflexivity. Qed.

Lemma makeArcsSymmetric_doubles_witness :
  ∃ arc', makeArcsSymmetric (arcs less_csp) !! 1 = Some arc' ∧
    relation arc' = (Y, X) ∧
    ∀ x y, constraint arc' x y = Z.ltb y x.
Proof.
  destruct (makeArcsSymmetric_doubles (arcs less_csp)) as (_ & _ & Hat).
  destruct (Hat 0 (mkArc (X, Y) Z.ltb) eq_refl) as [_ Hrev]. exact Hrev.
Defined.

Lemma ac3_no_arcs_witness :
  domain_of free_csp X = Some [] ∧ ac3 free_csp = Returns (true, free_csp).
Proof.
  split; [reflexivity|]. apply (ac3_no_arcs free_csp). reflexivity.
Defined.

Lemma ac3_terminates_witness :
  csp_wf less_csp ∧ ∃ b csp', ac3 less_csp = Returns (b, csp').
Proof.
  assert (csp_wf less_csp) as Hwf by solve_wf.
  split; [exact Hwf|].
  destruct (ac3_terminates less_csp Hwf) as [_ (b & csp' & Hret & _)].
  exists b, csp'. exact Hret.
Defined.

Lemma ac3_domains_only_shrink_witness :
  ∃ d, domain_of less_csp Y = Some d ∧
       [2; 3]%Z `sublist_of` d ∧ [2; 3]%Z ⊆+ d.
Proof.
  apply (proj2 (ac3_domains_only_shrink less_csp) true
           (with_store less_csp {[ 0 := [1; 2]%Z; 1 := [2; 3]%Z ]})).
  - vm_compute. reflexivity.
  - reflexivity.
Defined.

Lemma ac3_unsatisfiable_arc_witness :
  ∃ csp', ac3 never_csp = Returns (false, csp').
Proof.
  apply (ac3_unsatisfiable_arc never_csp (mkArc (Y, X) (λ _ _, false))
           [2; 3]%Z [1; 2]%Z).
  - solve_wf.
  - right. left.
  - reflexivity.
  - reflexivity.
  - discriminate.
  - reflexivity.
  - discriminate.
Defined.

Lemma revise_frame_witness :
  ∃ b csp', revise (mkArc (X, Y) Z.ltb) less_csp = Returns (b, csp') ∧
            domain_of csp' Y = domain_of less_csp Y.
Proof.
  destruct (revise_frame (mkArc (X, Y) Z.ltb) less_csp)
    as (b & csp' & Hrev & _ & _ & _ & _ & Hothers).
  - split; by eexists.
  - exists b, csp'. split; [exact Hrev|].
    apply Hothers. vm_compute. discriminate.
Defined.

(** C8, as stated, fails when the respect variable is mapped to the array
    of the pruned variable: [revise] on the arc [(X, Y, <)] removes [2]
    from the array that is also the domain of [Y], so the domain of [Y] is
    not what it was. *)
Lemma revise_shared_array_changes_respect :
  arc_has_domains shared_csp (mkArc (X, Y) Z.ltb) ∧
  Y ≠ X ∧
  ¬ (∀ b csp', revise (mkArc (X, Y) Z.ltb) shared_csp = Returns (b, csp') →
               domain_of csp' Y = domain_of shared_csp Y).
Proof.
  split; [split; by eexists|]. split; [discriminate|].
  intros Hframe. specialize (Hframe true _ eq_refl). discriminate Hframe.
Qed.

(** C3 on the code: [revise] removes the value [0] of [X] although the
    constraint [x == y] holds of it and the value [0] of [Y].  The test
    [!respectDomain.find(..)] negates the value found, and [0] is falsy. *)
Theorem revise_removes_supported_zero :
  ∃ csp', revise (mkArc (X, Y) Z.eqb) zero_csp = Returns (true, csp') ∧
          domain_of zero_csp X = Some [0]%Z ∧
          domain_of zero_csp Y = Some [0]%Z ∧
          Z.eqb 0 0 = true ∧
          domain_of csp' X = Some [].
Proof. eexists. repeat split; reflexivity. Qed.

Lemma ac3_chain_csp : ac3 chain_csp = Returns (true, chain_csp_after).
Proof. vm_compute. reflexivity. Qed.

(** C1 on the code: [ac3] returns true on [chain_csp] and leaves the value
    [2] in the domain of [Q], which no value of [P] supports under the
    reverse of the arc [(P, Q, ==)].  The arc [(Q, P)] lives in the queue
    only; the shrinking of [P] pushes the arcs of [csp.arcs], so it is not
    revised again. *)
Theorem ac3_true_not_arc_consistent :
  csp_wf chain_csp ∧
  ac3 chain_csp = Returns (true, chain_csp_after) ∧
  ¬ arc_consistent chain_csp_after.
Proof.
  split; [solve_wf|]. split; [apply ac3_chain_csp|].
  intros Hac.
  destruct (Hac (reverse_arc (mkArc (P, Q) Z.eqb))
              (ltac:(right; right; left)) [1; 2]%Z 2%Z eq_refl
              (ltac:(right; left)))
    as (db & b & Hdb & Hb & Hc).
  injection Hdb as <-. apply list_elem_of_singleton in Hb as ->.
  discriminate Hc.
Qed.

(** C5 on the code: a second run on the CSP left by the first one removes
    the value [2] from the domain of [Q]. *)
Theorem ac3_second_run_prunes :
  ∃ csp1 csp2,
    ac3 chain_csp = Returns (true, csp1) ∧
    ac3 csp1 = Returns (true, csp2) ∧
    domain_of csp1 Q = Some [1; 2]%Z ∧
    domain_of csp2 Q = Some [1]%Z.
Proof.
  exists chain_csp_after. eexists.
  split; [apply ac3_chain_csp|].
  split; [vm_compute; reflexivity|]. split; reflexivity.
Qed.

(** C2 on the code: in the fourth turn of the run on [chain_csp] the
    reverse of the arc [(R, P)] is revised, [P] loses a value and stays
    non-empty; the symmetric list holds two arcs with respect variable
    [P], [(R, P)] and the reverse [(Q, P)] of [(P, Q)], and the turn
    pushes the first one only. *)
Theorem ac3_requeues_given_arcs_only :
  ∃ arc csp' pushed,
    ac3_iter 3 (makeArcsSymmetric (arcs chain_csp)) chain_csp
      = Some ([arc], chain_csp) ∧
    relation arc = (P, R) ∧
    revise arc chain_csp = Returns (true, csp') ∧
    domain_of csp' P = Some [1]%Z ∧
    ac3_step [arc] chain_csp = Continue ([] ++ pushed) csp' ∧
    relation <$> pushed = [(R, P)] ∧
    relation <$> filter (λ a, P = (relation a).2)
                   (makeArcsSymmetric (arcs chain_csp))
      = [(R, P); (Q, P)].
Proof.
  eexists _, _, _. split; [reflexivity|].
  repeat split; reflexivity.
Qed.

End concrete.

(** ** Further properties of the revise step *)

Section revise_more.
Context {T : Type} `{JsValue T}.
Implicit Types (csp : CSP T) (arc : Arc T) (d pd rd vs : list T).

Lemma revise_Throws_cases arc csp :
  revise arc csp = Throws ↔
  domain_of csp (relation arc).1 = None ∨
  (∃ pd, domain_of csp (relation arc).1 = Some pd ∧ pd ≠ [] ∧
         domain_of csp (relation arc).2 = None).
Proof.
  destruct (domain_of csp (relation arc).1) as [pd|] eqn:Hpd.
  - unfold domain_of in Hpd.
    destruct (domains csp !! (relation arc).1) as [lp|] eqn:Hlp; [|done].
    simpl in Hpd.
    destruct (domain_of csp (relation arc).2) as [rd|] eqn:Hrd.
    + rewrite (revise_eq _ _ _ _ _ Hlp Hpd Hrd). split; [done|].
      intros [|(? & _ & _ & ?)]; done.
    + unfold revise. destruct (relation arc) as [p r]; simpl in *.
      rewrite Hlp, Hpd, Hrd, revise_scan_None. destruct pd as [|x pd].
      * split; [done|]. intros [|(? & [= <-] & ? & _)]; done.
      * split; [|done]. intros _. right. by exists (x :: pd).
  - split; [by left|]. intros _. unfold domain_of in Hpd. unfold revise.
    destruct (relation arc) as [p r]; simpl in *.
    destruct (domains csp !! p) as [lp|]; [|done]. simpl in Hpd.
    by rewrite Hpd.
Qed.

(** [revise] throws in two cases only: the pruned variable has no domain,
    or it has values and the respect variable has no domain.  On an empty
    pruned domain the respect domain is never read. *)
Theorem revise_throws_iff arc csp :
  revise arc csp = Throws ↔
  domain_of csp (relation arc).1 = None ∨
  (∃ pd, domain_of csp (relation arc).1 = Some pd ∧ pd ≠ [] ∧
         domain_of csp (relation arc).2 = None).
Proof. apply revise_Throws_cases. Qed.

(** An empty pruned domain: [revise] returns false and writes nothing,
    whether or not the respect variable has a domain. *)
Theorem revise_empty_domain arc csp :
  domain_of csp (relation arc).1 = Some [] →
  revise arc csp = Returns (false, csp).
Proof.
  intros Hpd.
  destruct (revise arc csp) as [[b csp']| |] eqn:Hrev.
  - pose proof Hrev as Hinv. apply revise_inv in Hinv
      as (lp & pd & pd' & Hlp & Hst & -> & Hcases).
    unfold domain_of in Hpd. rewrite Hlp in Hpd. simpl in Hpd.
    rewrite Hst in Hpd. injection Hpd as ->.
    assert (b = false) as ->.
    { by destruct Hcases as [(_ & _ & ->)|(rd & _ & _ & ->)]. }
    by rewrite (revise_false_unchanged _ _ _ Hrev).
  - apply revise_Throws_cases in Hrev as [Hnone|(pd & Hsome & Hne & _)];
      congruence.
  - unfold revise in Hrev. destruct (relation arc).
    repeat case_match; done.
Qed.

(** The array [revise] leaves: the values, in their order and with their
    repetitions, for which [find] gave a truthy value; the result tells
    whether one value failed the test. *)
Theorem revise_keeps_supported arc csp lp pd rd :
  domains csp !! (relation arc).1 = Some lp →
  store csp !! lp = Some pd →
  domain_of csp (relation arc).2 = Some rd →
  revise arc csp
  = Returns (negb (forallb (supported (constraint arc) rd) pd),
             with_store csp
               (<[lp := filter (λ v, supported (constraint arc) rd v) pd]> (store csp))).
Proof. apply revise_eq. Qed.

(** [pruneDomain] removes every occurrence of the values of the set and
    nothing else; the values kept stay in order. *)
Theorem pruneDomain_removes_set d vs :
  pruneDomain d vs = filter (λ v, v ∉ vs) d ∧
  pruneDomain d vs `sublist_of` d ∧
  ∀ v, v ∈ pruneDomain d vs ↔ v ∈ d ∧ v ∉ vs.
Proof.
  rewrite pruneDomain_filter. split; [done|]. split; [apply sublist_filter|].
  intros v. rewrite list_elem_of_filter. tauto.
Qed.

(** A second [revise] on the same arc finds nothing to remove, when the
    respect variable is mapped to another array than the pruned one. *)
Theorem revise_twice arc csp b csp' :
  arc_has_domains csp arc →
  domains csp !! (relation arc).1 ≠ domains csp !! (relation arc).2 →
  revise arc csp = Returns (b, csp') →
  revise arc csp' = Returns (false, csp').
Proof.
  intros [[pd Hpd] [rd Hrd]] Hdiff Hrev. unfold domain_of in Hpd.
  destruct (domains csp !! (relation arc).1) as [lp|] eqn:Hlp; [|done].
  simpl in Hpd. rewrite (revise_eq _ _ _ _ _ Hlp Hpd Hrd) in Hrev.
  injection Hrev as _ <-.
  set (pd' := filter (λ v, supported (constraint arc) rd v) pd).
  assert (domain_of (with_store csp (<[lp:=pd']> (store csp))) (relation arc).2
          = Some rd) as Hrd'.
  { rewrite domain_of_with_store_insert. unfold domain_of in Hrd.
    destruct (domains csp !! (relation arc).2) as [lr|]; [|done]. simpl in *.
    rewrite decide_False by congruence. done. }
  assert (forallb (supported (constraint arc) rd) pd' = true) as Hall.
  { apply forallb_forall. intros v Hv. apply list_elem_of_In in Hv.
    apply list_elem_of_filter in Hv as [Hv _]. by apply Is_true_true. }
  rewrite (revise_eq _ _ lp pd' rd);
    [|done|simpl; apply lookup_insert_eq|done].
  rewrite Hall, (forallb_supported_filter _ _ _ Hall). simpl.
  do 2 f_equal. unfold with_store. simpl. f_equal.
  by rewrite insert_insert_eq.
Qed.

End revise_more.

(** ** Further properties of the arc lists *)

Section arcs_more.
Context {T : Type} `{JsValue T}.
Implicit Types (csp : CSP T) (arc : Arc T) (arcQueue : list (Arc T)).

Lemma elem_of_makeArcsSymmetric arc (arcsArg : list (Arc T)) :
  arc ∈ makeArcsSymmetric arcsArg ↔
  arc ∈ arcsArg ∨ ∃ a, a ∈ arcsArg ∧ arc = reverse_arc a.
Proof.
  rewrite makeArcsSymmetric_app, elem_of_app, list_elem_of_fmap.
  split; (intros [|(a & ? & ?)]; [by left | right; by exists a]).
Qed.

Lemma reverse_arc_relation arc :
  relation (reverse_arc arc) = ((relation arc).2, (relation arc).1).
Proof. unfold reverse_arc. by destruct (relation arc). Qed.

Lemma reverse_arc_constraint arc x y :
  constraint (reverse_arc arc) x y = constraint arc y x.
Proof. unfold reverse_arc. by destruct (relation arc). Qed.

(** The list of [makeArcsSymmetric] is closed under reversal: for each of
    its arcs it holds an arc between the same variables the other way
    round, whose constraint is the same with its arguments swapped. *)
Theorem makeArcsSymmetric_closed (arcsArg : list (Arc T)) arc :
  arc ∈ makeArcsSymmetric arcsArg →
  ∃ arc', arc' ∈ makeArcsSymmetric arcsArg ∧
    relation arc' = ((relation arc).2, (relation arc).1) ∧
    ∀ x y, constraint arc' x y = constraint arc y x.
Proof.
  intros Harc. apply elem_of_makeArcsSymmetric in Harc as [Harc|(a & Ha & ->)].
  - exists (reverse_arc arc). split.
    + apply elem_of_makeArcsSymmetric. right. by exists arc.
    + split; [apply reverse_arc_relation|]. intros. apply reverse_arc_constraint.
  - exists a. split.
    + apply elem_of_makeArcsSymmetric. by left.
    + rewrite reverse_arc_relation. simpl. split; [by destruct (relation a)|].
      intros. by rewrite reverse_arc_constraint.
Qed.

(** The arcs of the symmetric list with a given respect variable are the
    arcs [arcsWithRespectTo] returns, followed by the reverses of the given
    arcs that prune that variable; [arcsWithRespectTo] returns the first
    part only. *)
Theorem arcsWithRespectTo_symmetric_part (v : Var) csp :
  filter (λ a, v = (relation a).2) (makeArcsSymmetric (arcs csp))
  = arcsWithRespectTo v csp
    ++ (reverse_arc <$> filter (λ a, v = (relation a).1) (arcs csp)).
Proof.
  rewrite makeArcsSymmetric_app, filter_app. unfold arcsWithRespectTo. f_equal.
  induction (arcs csp) as [|a l IH]; [done|].
  rewrite fmap_cons, !filter_cons, reverse_arc_relation. simpl.
  destruct (decide (v = (relation a).1)); by rewrite IH.
Qed.

End arcs_more.

(** ** Further properties of the loop *)

Section loop_more.
Context {T : Type} `{JsValue T}.
Implicit Types (csp : CSP T) (arc : Arc T) (arcQueue : list (Arc T)).

Lemma queue_of_initial csp : queue_of csp (makeArcsSymmetric (arcs csp)).
Proof. unfold queue_of. by rewrite Forall_forall. Qed.

Lemma ac3_step_queue_of csp0 arcQueue csp arcQueue' csp' :
  arcs csp = arcs csp0 →
  queue_of csp0 arcQueue →
  ac3_step arcQueue csp = Continue arcQueue' csp' →
  arcs csp' = arcs csp0 ∧ queue_of csp0 arcQueue'.
Proof.
  intros Harcs Hq Hstep.
  pose proof (ac3_step_shrinks arcQueue csp) as Hsh. rewrite Hstep in Hsh.
  destruct Hsh as (_ & _ & Harcs' & _). split; [congruence|].
  apply ac3_step_Continue in Hstep
    as (arc & rest & -> & [[_ ->]|(_ & -> & _)]);
    apply Forall_cons in Hq as [_ Hrest]; [done|].
  apply Forall_app. split; [done|]. apply Forall_forall. intros a Ha.
  apply list_elem_of_filter in Ha as [_ Ha].
  apply elem_of_makeArcsSymmetric. left. congruence.
Qed.

(** A false return is a wipeout: in the CSP left by [ac3] the pruned
    variable of an arc of the symmetric list has an empty domain, and that
    domain held a value at the call. *)
Theorem ac3_false_wipeout csp csp' :
  ac3 csp = Returns (false, csp') →
  ∃ arc, arc ∈ makeArcsSymmetric (arcs csp) ∧
         domain_of csp' (relation arc).1 = Some [] ∧
         ∃ d, domain_of csp (relation arc).1 = Some d ∧ d ≠ [].
Proof.
  intros Hret.
  apply (ac3_loop_invariant
           (λ q c, (arcs c = arcs csp ∧ queue_of csp q) ∧ shrinks csp c)
           (λ b c, if b then True
                   else ∃ arc, arc ∈ makeArcsSymmetric (arcs csp) ∧
                          domain_of c (relation arc).1 = Some [] ∧
                          ∃ d, domain_of csp (relation arc).1 = Some d ∧ d ≠ []))
    in Hret; [done| |].
  - intros q c [[Harcs Hq] Hsh].
    pose proof (ac3_step_shrinks q c) as Hstep_sh.
    destruct (ac3_step q c) as [q' c'|b c'|] eqn:Hstep; [| |done].
    + split; [by eapply ac3_step_queue_of | by eapply shrinks_trans].
    + apply ac3_step_Done in Hstep
        as [(_ & -> & _)|(arc & rest & -> & -> & Hrev & Hempty)]; [done|].
      exists arc. split; [by apply Forall_cons in Hq as [? _]|].
      split; [done|].
      apply revise_effect in Hrev
        as (lp & pd & pd' & Hlp & Hpd & _ & _ & _ & Hlt).
      specialize (Hlt eq_refl).
      pose proof (shrinks_domain_of _ _ (relation arc).1 Hsh) as Hdom.
      unfold domain_of in Hdom at 1. rewrite Hlp in Hdom. simpl in Hdom.
      rewrite Hpd in Hdom. inversion Hdom as [? d Hsub|]; subst.
      exists d. split; [done|]. intros ->.
      apply sublist_nil_r in Hsub as ->. simpl in Hlt. lia.
  - split; [split; [done|apply queue_of_initial]|apply shrinks_refl].
Qed.

(** A true return wiped nothing out: a domain that held a value at the
    call holds one at the return. *)
Theorem ac3_true_keeps_nonempty csp csp' v d :
  ac3 csp = Returns (true, csp') →
  domain_of csp v = Some d → d ≠ [] →
  ∃ d', domain_of csp' v = Some d' ∧ d' ≠ [].
Proof.
  intros Hret Hd Hne. unfold domain_of in Hd.
  destruct (domains csp !! v) as [l|] eqn:Hl; [|done]. simpl in Hd.
  apply (ac3_loop_invariant
           (λ _ c, domains c = domains csp ∧
                   ∃ d', store c !! l = Some d' ∧ d' ≠ [])
           (λ b c, if b then ∃ d', domain_of c v = Some d' ∧ d' ≠ []
                   else True))
    in Hret; [done| |].
  - intros q c [Hdoms (d' & Hd' & Hne')].
    destruct (ac3_step q c) as [q' c'|b c'|] eqn:Hstep; [| |done].
    + apply ac3_step_Continue in Hstep
        as (arc & rest & -> & [[Hrev _]|(Hrev & _ & d1 & Hd1 & Hne1)]).
      * apply revise_false_unchanged in Hrev as ->. split; [done|]. by exists d'.
      * apply revise_effect in Hrev
          as (lp & pd & pd' & Hlp & Hpd & -> & _).
        split; [done|]. simpl.
        rewrite domain_of_with_store_insert, Hlp in Hd1. simpl in Hd1.
        rewrite decide_True in Hd1 by done. injection Hd1 as ->.
        destruct (decide (lp = l)) as [->|].
        -- rewrite lookup_insert_eq. by exists d1.
        -- rewrite lookup_insert_ne by done. by exists d'.
    + apply ac3_step_Done in Hstep
        as [(_ & -> & ->)|(_ & _ & _ & -> & _)]; [|done].
      exists d'. unfold domain_of. rewrite Hdoms, Hl. done.
  - split; [done|]. by exists d.
Qed.

Lemma makeArcsSymmetric_pruned_variable (arcsArg : list (Arc T)) arc :
  arc ∈ makeArcsSymmetric arcsArg →
  ∃ a, a ∈ arcsArg ∧
       ((relation arc).1 = (relation a).1 ∨ (relation arc).1 = (relation a).2).
Proof.
  intros Harc. apply elem_of_makeArcsSymmetric in Harc as [Harc|(a & Ha & ->)].
  - exists arc. split; [done|by left].
  - exists a. split; [done|]. rewrite reverse_arc_relation. by right.
Qed.

(** What [ac3] leaves alone: [csp.variables], [csp.arcs], the [domains]
    map, and every array that is not the domain of a variable of an arc. *)
Theorem ac3_frame csp b csp' :
  ac3 csp = Returns (b, csp') →
  variables csp' = variables csp ∧
  arcs csp' = arcs csp ∧
  domains csp' = domains csp ∧
  ∀ l, (∀ arc, arc ∈ arcs csp →
          domains csp !! (relation arc).1 ≠ Some l ∧
          domains csp !! (relation arc).2 ≠ Some l) →
       store csp' !! l = store csp !! l.
Proof.
  intros Hret.
  pose proof (ac3_loop_shrinks _ _ _ _ _ Hret) as (Hv & Hd & Ha & _).
  repeat split; try done. intros l Hl.
  apply (ac3_loop_invariant
           (λ q c, (arcs c = arcs csp ∧ queue_of csp q) ∧
                   domains c = domains csp ∧ store c !! l = store csp !! l)
           (λ _ c, store c !! l = store csp !! l))
    in Hret; [done| |].
  - intros q c ([Harcs Hq] & Hdoms & Hsame).
    destruct (ac3_step q c) as [q' c'|b' c'|] eqn:Hstep; [| |done].
    + split; [by eapply ac3_step_queue_of|].
      apply ac3_step_Continue in Hstep
        as (arc & rest & -> & [[Hrev _]|(Hrev & _)]).
      * by apply revise_false_unchanged in Hrev as ->.
      * apply Forall_cons in Hq as [Harc _].
        apply makeArcsSymmetric_pruned_variable in Harc as (a & Hin & Hvar).
        apply revise_effect in Hrev
          as (lp & pd & pd' & Hlp & Hpd & -> & _).
        split; [done|]. simpl. rewrite lookup_insert_ne; [done|].
        intros ->. rewrite Hdoms in Hlp. destruct (Hl a Hin) as [H1 H2].
        destruct Hvar as [Heq|Heq]; rewrite Heq in Hlp; congruence.
    + apply ac3_step_Done in Hstep
        as [(_ & _ & ->)|(arc & rest & -> & _ & Hrev & _)]; [done|].
      apply Forall_cons in Hq as [Harc _].
      apply makeArcsSymmetric_pruned_variable in Harc as (a & Hin & Hvar).
      apply revise_effect in Hrev
        as (lp & pd & pd' & Hlp & Hpd & -> & _).
      simpl. rewrite lookup_insert_ne; [done|].
      intros ->. rewrite Hdoms in Hlp. destruct (Hl a Hin) as [H1 H2].
      destruct Hvar as [Heq|Heq]; rewrite Heq in Hlp; congruence.
  - repeat split; [apply queue_of_initial].
Qed.

(** A missing domain: [ac3] throws when the pruned variable of the first
    arc has no entry in [domains]. *)
Theorem ac3_throws_missing_domain csp arc rest :
  arcs csp = arc :: rest →
  domain_of csp (relation arc).1 = None →
  ac3 csp = Throws.
Proof.
  intros Harcs Hnone. unfold ac3. rewrite makeArcsSymmetric_app, Harcs.
  assert (revise arc csp = Throws) as Hrev
    by (apply revise_Throws_cases; by left).
  cbn [ac3_loop app ac3_step]. by rewrite Hrev.
Qed.

End loop_more.

(** ** What a true return establishes *)

Section consistency.
Context {T : Type} `{JsValue T}.
Implicit Types (csp : CSP T) (arc : Arc T) (arcQueue : list (Arc T)).

Lemma revise_false_settled arc csp csp' :
  revise arc csp = Returns (false, csp') → arc_settled csp arc.
Proof.
  intros Hrev. apply revise_inv in Hrev
    as (lp & pd & pd' & Hlp & Hpd & _ & Hcases).
  intros pd0 a Hpd0 Ha. unfold domain_of in Hpd0. rewrite Hlp in Hpd0.
  simpl in Hpd0. rewrite Hpd in Hpd0. injection Hpd0 as <-.
  destruct Hcases as [(-> & _)|(rd & Hrd & _ & Hb)]; [inversion Ha|].
  exists rd. split; [done|].
  assert (forallb (supported (constraint arc) rd) pd = true) as Hall
    by by destruct (forallb _ pd).
  rewrite forallb_forall in Hall. apply Hall. by apply list_elem_of_In.
Qed.

Lemma revise_true_settled arc csp csp' :
  domains csp !! (relation arc).2 ≠ domains csp !! (relation arc).1 →
  revise arc csp = Returns (true, csp') → arc_settled csp' arc.
Proof.
  intros Hdiff Hrev. apply revise_inv in Hrev
    as (lp & pd & pd' & Hlp & Hpd & -> & Hcases).
  destruct Hcases as [(_ & _ & ?)|(rd & Hrd & -> & _)]; [done|].
  intros pd0 a Hpd0 Ha.
  rewrite domain_of_with_store_insert, Hlp in Hpd0. simpl in Hpd0.
  rewrite decide_True in Hpd0 by done. injection Hpd0 as <-.
  exists rd. split.
  - rewrite domain_of_with_store_insert. unfold domain_of in Hrd.
    destruct (domains csp !! (relation arc).2) as [lr|]; [|done]. simpl in *.
    rewrite decide_False by congruence. done.
  - apply list_elem_of_filter in Ha as [Ha _]. by apply Is_true_true.
Qed.

Lemma arc_settled_shrink arc csp lp (pd pd' : list T) :
  store csp !! lp = Some pd → pd' `sublist_of` pd →
  domains csp !! (relation arc).2 ≠ Some lp →
  arc_settled csp arc →
  arc_settled (with_store csp (<[lp := pd']> (store csp))) arc.
Proof.
  intros Hpd Hsub Hdiff Hset pd0 a Hpd0 Ha.
  assert (∃ pd1, domain_of csp (relation arc).1 = Some pd1 ∧ a ∈ pd1)
    as (pd1 & Hpd1 & Ha1).
  { rewrite domain_of_with_store_insert in Hpd0. unfold domain_of.
    destruct (domains csp !! (relation arc).1) as [l|]; [|done]. simpl in *.
    destruct (decide (lp = l)) as [<-|].
    - injection Hpd0 as <-. exists pd. split; [done|].
      by eapply sublist_subseteq.
    - by exists pd0. }
  destruct (Hset pd1 a Hpd1 Ha1) as (rd & Hrd & Hsup).
  exists rd. split; [|done].
  rewrite domain_of_with_store_insert. unfold domain_of in Hrd.
  destruct (domains csp !! (relation arc).2) as [lr|]; [|done]. simpl in *.
  rewrite decide_False by congruence. done.
Qed.

(** The invariant of the loop for the arcs of [csp.arcs]: an arc is queued
    or passes the test of [revise]. *)
Lemma ac3_step_settled csp0 arcQueue csp arcQueue' csp' :
  no_shared_arrays csp →
  arcs csp = arcs csp0 →
  (∀ arc, arc ∈ arcs csp0 → arc ∈ arcQueue ∨ arc_settled csp arc) →
  ac3_step arcQueue csp = Continue arcQueue' csp' →
  ∀ arc, arc ∈ arcs csp0 → arc ∈ arcQueue' ∨ arc_settled csp' arc.
Proof.
  intros Hinj Harcs Hinv Hstep a Ha.
  apply ac3_step_Continue in Hstep
    as (arc & rest & -> & [[Hrev ->]|(Hrev & -> & _)]).
  - pose proof (revise_false_settled _ _ _ Hrev) as Hset.
    apply revise_false_unchanged in Hrev as ->.
    destruct (Hinv a Ha) as [Hq|]; [|by right].
    apply elem_of_cons in Hq as [->|]; [by right|by left].
  - destruct (decide ((relation arc).1 = (relation a).2)) as [Heq|Hne].
    { left. apply elem_of_app. right. apply list_elem_of_filter.
      split; [done|]. apply revise_shrinks in Hrev as (_ & _ & -> & _).
      congruence. }
    pose proof Hrev as Heff. apply revise_effect in Heff
      as (lp & pd & pd' & Hlp & Hpd & Hcsp' & Hsub & _).
    assert (domains csp !! (relation a).2 ≠ Some lp) as Hdiff.
    { intros Hr. apply Hne. symmetry. by eapply Hinj. }
    destruct (Hinv a Ha) as [Hq|Hset].
    + apply elem_of_cons in Hq as [->|Hq].
      * right. eapply revise_true_settled; [|done]. congruence.
      * left. apply elem_of_app. by left.
    + right. subst csp'. by eapply arc_settled_shrink.
Qed.

(** When no two variables share an array and [ac3] returns true, every arc
    of [csp.arcs], as given, is consistent in the CSP it leaves: each value
    of the pruned variable has a support in the domain of the respect
    variable.  (The reverse arcs are not covered: see
    [ac3_true_not_arc_consistent].) *)
Theorem ac3_given_arcs_consistent csp csp' :
  no_shared_arrays csp →
  ac3 csp = Returns (true, csp') →
  ∀ arc, arc ∈ arcs csp →
  ∀ pd a, domain_of csp' (relation arc).1 = Some pd → a ∈ pd →
  ∃ rd r, domain_of csp' (relation arc).2 = Some rd ∧ r ∈ rd ∧
          constraint arc a r = true.
Proof.
  intros Hinj Hret.
  apply (ac3_loop_invariant
           (λ q c, shrinks csp c ∧
                   ∀ arc, arc ∈ arcs csp → arc ∈ q ∨ arc_settled c arc)
           (λ b c, if b then ∀ arc, arc ∈ arcs csp → arc_settled c arc
                   else True))
    in Hret.
  - intros arc Harc pd a Hpd Ha.
    destruct (Hret arc Harc pd a Hpd Ha) as (rd & Hrd & Hsup).
    apply supported_sound in Hsup as (r & Hr & Hc). by exists rd, r.
  - intros q c [Hsh Hinv].
    assert (no_shared_arrays c) as Hinj'.
    { destruct Hsh as (_ & Hd & _). unfold no_shared_arrays. by rewrite Hd. }
    assert (arcs c = arcs csp) as Harcs by by destruct Hsh as (_ & _ & ? & _).
    pose proof (ac3_step_shrinks q c) as Hstep_sh.
    destruct (ac3_step q c) as [q' c'|b c'|] eqn:Hstep; [| |done].
    + split; [by eapply shrinks_trans|]. by eapply ac3_step_settled.
    + apply ac3_step_Done in Hstep as [(-> & -> & ->)|(_ & _ & _ & -> & _)];
        [|done].
      intros arc Harc. destruct (Hinv arc Harc) as [Hq|]; [inversion Hq|done].
  - split; [apply shrinks_refl|]. intros arc Harc. left.
    apply elem_of_makeArcsSymmetric. by left.
Qed.

(** *** An arc-consistent CSP is left as it is *)

Lemma revise_consistent_arc arc csp :
  csp_wf csp → all_truthy csp → arc_consistent csp →
  arc ∈ makeArcsSymmetric (arcs csp) →
  revise arc csp = Returns (false, csp).
Proof.
  intros Hwf Htruthy Hac Harc.
  pose proof (makeArcsSymmetric_has_domains _ Hwf) as Hdoms.
  rewrite Forall_forall in Hdoms.
  destruct (Hdoms arc Harc) as [[pd Hpd] [rd Hrd]].
  pose proof Hpd as Hpd0. unfold domain_of in Hpd.
  destruct (domains csp !! (relation arc).1) as [lp|] eqn:Hlp; [|done].
  simpl in Hpd.
  assert (forallb (supported (constraint arc) rd) pd = true) as Hall.
  { apply forallb_forall. intros a Ha. apply list_elem_of_In in Ha.
    destruct (Hac arc Harc pd a Hpd0 Ha) as (db & b & Hdb & Hb & Hc).
    rewrite Hrd in Hdb. injection Hdb as <-.
    eapply supported_complete; [|done..].
    unfold domain_of in Hrd.
    destruct (domains csp !! (relation arc).2) as [lr|]; [|done].
    by eapply Htruthy. }
  pose proof (revise_eq _ _ _ _ _ Hlp Hpd Hrd) as Hrev.
  rewrite Hall in Hrev. simpl in Hrev.
  by rewrite Hrev, (revise_false_unchanged _ _ _ Hrev).
Qed.

Lemma ac3_loop_all_false arcQueue csp fuel :
  (∀ arc, arc ∈ arcQueue → revise arc csp = Returns (false, csp)) →
  length arcQueue < fuel →
  ac3_loop fuel arcQueue csp = Returns (true, csp).
Proof.
  revert fuel. induction arcQueue as [|arc rest IH]; intros fuel Hall Hfuel;
    (destruct fuel as [|fuel]; [simpl in Hfuel; lia|]); [done|].
  cbn [ac3_loop ac3_step]. rewrite (Hall arc) by left.
  apply IH; [|simpl in Hfuel; lia]. intros a Ha. apply Hall. by right.
Qed.

(** A CSP that is arc-consistent over the symmetric arc list, and whose
    domains hold no falsy value, is a fixed point: [ac3] returns true and
    the CSP is as it was. *)
Theorem ac3_consistent_unchanged csp :
  csp_wf csp → all_truthy csp → arc_consistent csp →
  ac3 csp = Returns (true, csp).
Proof.
  intros Hwf Htruthy Hac. apply ac3_loop_all_false.
  - intros arc Harc. by apply revise_consistent_arc.
  - unfold loop_bound. lia.
Qed.

End consistency.

(** ** An empty domain next to a non-empty one *)

Section empty_neighbour.
Context {T : Type} `{JsValue T}.
Implicit Types (csp : CSP T) (arc : Arc T) (arcQueue : list (Arc T)).

(** Against an empty respect domain every value fails the test. *)
Lemma revise_empty_respect arc csp (pd : list T) :
  domain_of csp (relation arc).1 = Some pd → pd ≠ [] →
  domain_of csp (relation arc).2 = Some [] →
  ∃ csp', revise arc csp = Returns (true, csp') ∧
          domain_of csp' (relation arc).1 = Some [].
Proof.
  intros Hpd Hne Hrd. unfold domain_of in Hpd.
  destruct (domains csp !! (relation arc).1) as [lp|] eqn:Hlp; [|done].
  simpl in Hpd. rewrite (revise_eq _ _ _ _ _ Hlp Hpd Hrd).
  assert (filter (λ v, supported (constraint arc) [] v) pd = []) as ->.
  { clear Hpd Hne. induction pd as [|p pd IH]; [done|].
    by rewrite filter_cons_False by (by intros []). }
  eexists. split.
  - do 2 f_equal. by destruct pd.
  - rewrite domain_of_with_store_insert, Hlp. simpl. by rewrite decide_True.
Qed.

Lemma ac3_step_empty_respect arc arcQueue csp :
  arc ∈ arcQueue →
  (∃ pd, domain_of csp (relation arc).1 = Some pd ∧ pd ≠ []) →
  domain_of csp (relation arc).2 = Some [] →
  match ac3_step arcQueue csp with
  | Continue arcQueue' csp' =>
      arc ∈ arcQueue' ∧
      (∃ pd, domain_of csp' (relation arc).1 = Some pd ∧ pd ≠ []) ∧
      domain_of csp' (relation arc).2 = Some []
  | Done b _ => b = false
  | Raise => True
  end.
Proof.
  intros Harc (pd & Hpd & Hne) Hrd.
  destruct (revise_empty_respect _ _ _ Hpd Hne Hrd) as (cspw & Hrevw & Hwipe).
  destruct (ac3_step arcQueue csp) as [q' csp'|b csp'|] eqn:Hstep; [| |done].
  - apply ac3_step_Continue in Hstep as (arc0 & rest & -> & Hcases).
    apply elem_of_cons in Harc as [<-|Hrest].
    { destruct Hcases as [[Hrev _]|(Hrev & _ & d & Hd & Hdne)]; [congruence|].
      rewrite Hrevw in Hrev. injection Hrev as <-. congruence. }
    destruct Hcases as [[Hrev ->]|(Hrev & -> & d & Hd & Hdne)].
    + apply revise_false_unchanged in Hrev as ->.
      split; [done|]. split; [by exists pd|done].
    + split; [apply elem_of_app; by left|].
      apply revise_effect in Hrev
        as (lp & pd0 & pd0' & Hlp & Hpd0 & -> & Hsub & _).
      rewrite domain_of_with_store_insert, Hlp in Hd. simpl in Hd.
      rewrite decide_True in Hd by done. injection Hd as ->.
      rewrite !domain_of_with_store_insert. unfold domain_of in Hpd, Hrd.
      split.
      * destruct (domains csp !! (relation arc).1) as [l|]; simpl in *; [|done].
        destruct (decide (lp = l)); [by exists d | by exists pd].
      * destruct (domains csp !! (relation arc).2) as [l|]; simpl in *; [|done].
        destruct (decide (lp = l)) as [<-|]; [|done].
        rewrite Hpd0 in Hrd. injection Hrd as ->.
        by apply sublist_nil_r in Hsub as ->.
  - apply ac3_step_Done in Hstep as [(-> & _)|(_ & _ & _ & -> & _)];
      [inversion Harc | done].
Qed.

(** [ac3] returns false when an arc joins a variable whose domain is empty
    to a variable whose domain is not, in either direction: the arc, or its
    reverse, empties the other domain. *)
Theorem ac3_empty_neighbour csp arc (d : list T) :
  csp_wf csp →
  arc ∈ arcs csp →
  d ≠ [] →
  (domain_of csp (relation arc).1 = Some d ∧
   domain_of csp (relation arc).2 = Some []) ∨
  (domain_of csp (relation arc).1 = Some [] ∧
   domain_of csp (relation arc).2 = Some d) →
  ∃ csp', ac3 csp = Returns (false, csp').
Proof.
  intros Hwf Harc Hne Hcases.
  assert (∃ arc', arc' ∈ makeArcsSymmetric (arcs csp) ∧
            domain_of csp (relation arc').1 = Some d ∧
            domain_of csp (relation arc').2 = Some [])
    as (arc' & Harc' & Hpd & Hrd).
  { destruct Hcases as [[Hp Hr]|[Hp Hr]].
    - exists arc. split; [|done]. apply elem_of_makeArcsSymmetric. by left.
    - exists (reverse_arc arc). rewrite reverse_arc_relation. simpl.
      split; [|done]. apply elem_of_makeArcsSymmetric. right. by exists arc. }
  assert (loop_wf (makeArcsSymmetric (arcs csp)) csp) as Hloop
    by (split; [done | by apply makeArcsSymmetric_has_domains]).
  destruct (ac3_loop_returns (S (loop_bound (makeArcsSymmetric (arcs csp)) csp))
              _ _ Hloop) as (b & csp' & Hret); [lia|].
  exists csp'. unfold ac3. rewrite Hret. do 2 f_equal.
  apply (ac3_loop_invariant
           (λ q c, arc' ∈ q ∧
                   (∃ pd, domain_of c (relation arc').1 = Some pd ∧ pd ≠ []) ∧
                   domain_of c (relation arc').2 = Some [])
           (λ b _, b = false)) in Hret; [done| |].
  - intros q c (Hin & Hdom & Hempty).
    exact (ac3_step_empty_respect arc' q c Hin Hdom Hempty).
  - split; [done|]. split; [by exists d|done].
Qed.

End empty_neighbour.

(** ** The further properties on concrete problems *)

Section concrete_more.
Import Examples MoreExamples.

Ltac solve_wf := unfold csp_wf; simpl; repeat constructor; by eexists.

Lemma revise_empty_domain_witness :
  domain_of free_csp W = None ∧
  revise (mkArc (X, W) Z.ltb) free_csp = Returns (false, free_csp).
Proof.
  split; [reflexivity|].
  apply (revise_empty_domain (mkArc (X, W) Z.ltb) free_csp). reflexivity.
Defined.

Lemma revise_keeps_supported_witness :
  ∃ csp', revise (mkArc (X, Y) Z.ltb) less_csp = Returns (true, csp') ∧
          domain_of csp' X = Some [1; 2]%Z.
Proof.
  exists (with_store less_csp {[ 0 := [1; 2]%Z; 1 := [1; 2; 3]%Z ]}).
  split; [|reflexivity].
  rewrite (revise_keeps_supported (mkArc (X, Y) Z.ltb) less_csp 0
             [1; 2; 3]%Z [1; 2; 3]%Z eq_refl eq_refl eq_refl).
  reflexivity.
Defined.

Lemma revise_twice_witness :
  ∃ csp', revise (mkArc (X, Y) Z.ltb) less_csp = Returns (true, csp') ∧
          revise (mkArc (X, Y) Z.ltb) csp' = Returns (false, csp').
Proof.
  eexists. split; [reflexivity|].
  apply (revise_twice (mkArc (X, Y) Z.ltb) less_csp true).
  - split; by eexists.
  - vm_compute. discriminate.
  - reflexivity.
Defined.

Lemma revise_remaining_supported_witness :
  ∃ rd r, domain_of less_csp Y = Some rd ∧ r ∈ rd ∧ Z.ltb 2 r = true.
Proof.
  apply (revise_remaining_supported (mkArc (X, Y) Z.ltb) less_csp true
           (with_store less_csp {[ 0 := [1; 2]%Z; 1 := [1; 2; 3]%Z ]})
           2%Z [1; 2]%Z).
  - reflexivity.
  - reflexivity.
  - right. left.
Defined.

Lemma revise_true_iff_removed_witness :
  [1; 2]%Z `sublist_of` [1; 2; 3]%Z ∧
  (true = true ↔ length [1; 2]%Z < length [1; 2; 3]%Z).
Proof.
  apply (revise_true_iff_removed (mkArc (X, Y) Z.ltb) less_csp true
           (with_store less_csp {[ 0 := [1; 2]%Z; 1 := [1; 2; 3]%Z ]}));
    reflexivity.
Defined.

Lemma revise_removed_unsupported_witness : Z.ltb 3 2 = false.
Proof.
  apply (revise_removed_unsupported (mkArc (X, Y) Z.ltb) less_csp true
           (with_store less_csp {[ 0 := [1; 2]%Z; 1 := [1; 2; 3]%Z ]})
           3%Z [1; 2; 3]%Z [1; 2]%Z [1; 2; 3]%Z).
  - reflexivity.
  - reflexivity.
  - reflexivity.
  - reflexivity.
  - repeat constructor.
  - right. right. left.
  - intros Hin. apply elem_of_cons in Hin as [Heq|Hin]; [discriminate Heq|].
    apply list_elem_of_singleton in Hin. discriminate Hin.
  - right. left.
Defined.

Lemma makeArcsSymmetric_closed_witness :
  ∃ arc', arc' ∈ makeArcsSymmetric (arcs less_csp) ∧
    relation arc' = (Y, X) ∧
    ∀ x y, constraint arc' x y = Z.ltb y x.
Proof.
  apply (makeArcsSymmetric_closed (arcs less_csp) (mkArc (X, Y) Z.ltb)).
  left.
Defined.

Lemma ac3_false_wipeout_witness :
  ∃ arc, arc ∈ makeArcsSymmetric (arcs never_csp) ∧
    domain_of (with_store never_csp {[ 0 := [1; 2]%Z; 1 := [] ]})
      (relation arc).1 = Some [] ∧
    ∃ d, domain_of never_csp (relation arc).1 = Some d ∧ d ≠ [].
Proof.
  apply (ac3_false_wipeout never_csp). vm_compute. reflexivity.
Defined.

Lemma ac3_true_keeps_nonempty_witness :
  ∃ d', domain_of (with_store less_csp {[ 0 := [1; 2]%Z; 1 := [2; 3]%Z ]}) X
        = Some d' ∧ d' ≠ [].
Proof.
  apply (ac3_true_keeps_nonempty less_csp _ X [1; 2; 3]%Z).
  - vm_compute. reflexivity.
  - reflexivity.
  - discriminate.
Defined.

Lemma ac3_frame_witness :
  store (with_store spare_csp
           {[ 0 := [1; 2]%Z; 1 := [2; 3]%Z; 2 := [7]%Z ]}) !! 2
  = store spare_csp !! 2.
Proof.
  apply (ac3_frame spare_csp true).
  - vm_compute. reflexivity.
  - intros arc Harc. apply list_elem_of_singleton in Harc as ->.
    split; vm_compute; discriminate.
Defined.

Lemma ac3_throws_missing_domain_witness : ac3 missing_csp = Throws.
Proof.
  apply (ac3_throws_missing_domain missing_csp (mkArc (W, X) Z.ltb) []);
    reflexivity.
Defined.

Lemma chain_csp_no_shared_arrays : no_shared_arrays chain_csp.
Proof.
  intros v w l Hv Hw. simpl in Hv, Hw.
  repeat (apply lookup_insert_Some in Hv as [[<- <-]|[_ Hv]]);
    try apply lookup_singleton_Some in Hv as [<- <-];
    repeat (apply lookup_insert_Some in Hw as [[<- Hw]|[_ Hw]]);
    try apply lookup_singleton_Some in Hw as [<- Hw];
    done.
Defined.

Lemma ac3_given_arcs_consistent_witness :
  ∃ rd r, domain_of chain_csp_after Q = Some rd ∧ r ∈ rd ∧ Z.eqb 1 r = true.
Proof.
  apply (ac3_given_arcs_consistent chain_csp chain_csp_after
           chain_csp_no_shared_arrays ac3_chain_csp
           (mkArc (P, Q) Z.eqb) ltac:(left) [1]%Z 1%Z eq_refl ltac:(left)).
Defined.

Lemma settled_csp_all_truthy : all_truthy settled_csp.
Proof.
  intros l d Hl. simpl in Hl.
  apply lookup_insert_Some in Hl as [[<- <-]|[_ Hl]];
    [|apply lookup_singleton_Some in Hl as [<- <-]];
    repeat constructor.
Defined.

Lemma settled_csp_arc_consistent : arc_consistent settled_csp.
Proof.
  intros arc Harc. rewrite makeArcsSymmetric_app in Harc. simpl in Harc.
  apply elem_of_cons in Harc as [->|Harc];
    [|apply list_elem_of_singleton in Harc as ->];
    intros da a Hda Ha; injection Hda as <-.
  - apply elem_of_cons in Ha as [->|Ha];
      [|apply list_elem_of_singleton in Ha as ->];
      exists [2; 3]%Z, 3%Z; repeat split; right; left.
  - apply elem_of_cons in Ha as [->|Ha];
      [|apply list_elem_of_singleton in Ha as ->];
      exists [1; 2]%Z, 1%Z; repeat split; left.
Defined.

Lemma ac3_consistent_unchanged_witness :
  ac3 settled_csp = Returns (true, settled_csp).
Proof.
  apply (ac3_consistent_unchanged settled_csp).
  - solve_wf.
  - apply settled_csp_all_truthy.
  - apply settled_csp_arc_consistent.
Defined.

Lemma ac3_empty_neighbour_witness :
  ∃ csp', ac3 empty_side_csp = Returns (false, csp').
Proof.
  apply (ac3_empty_neighbour empty_side_csp (mkArc (X, Y) Z.ltb) [1; 2]%Z).
  - solve_wf.
  - left.
  - discriminate.
  - right. split; reflexivity.
Defined.

End concrete_more.
